(** * goenv: the version model and the tag retrieval pipeline

    A shallow embedding of [internal/version] (ParseVersion, Compare,
    GroupVersions, NormalizeVersion) and of [internal/github] (FetchTags),
    followed by the properties of the specification that concern them.

    Conventions.
    - A Go [string] is a byte sequence: [string] here, [list ascii] inside the
      regular-expression matcher.
    - A Go [int] is a 64-bit signed integer, modelled as [Z]; where the code
      does arithmetic on it the wrap-around is written out ([wrap64]).
    - A slice is a [list]; [nil] and the empty slice are both [[]].
    - A pointer to a [Version] is modelled by the value it points to: no
      function below writes through such a pointer.  A [nil] pointer is
      [None], and dereferencing it is a panic ([None] result).
    - [fmt.Printf] progress messages are not modelled. *)

From Stdlib Require Import ZArith Ascii String List Lia Permutation Sorted.
From stdpp Require Import base option list gmap strings sorting.

Local Open Scope Z_scope.

(* ================================================================== *)
(** ** Go runtime: int, strconv, fmt, strings *)
(* ================================================================== *)

Module Go.

Definition MaxInt64 : Z := 2 ^ 63 - 1.
Definition MinInt64 : Z := - 2 ^ 63.

(** Two's complement wrap-around of 64-bit [int] arithmetic. *)
Definition wrap64 (z : Z) : Z := (z + 2 ^ 63) mod 2 ^ 64 - 2 ^ 63.

(** Go's [/] on integers truncates towards zero. *)
Definition div (a b : Z) : Z := wrap64 (Z.quot a b).

Definition bytes (s : string) : list ascii := String.list_ascii_of_string s.
Definition str (l : list ascii) : string := String.string_of_list_ascii l.

Definition is_digit (c : ascii) : bool :=
  let n := nat_of_ascii c in (48 <=? n)%nat && (n <=? 57)%nat.

Definition digit_val (c : ascii) : Z := Z.of_nat (nat_of_ascii c) - 48.

Definition digit_char (d : Z) : ascii := ascii_of_nat (Z.to_nat (48 + d)).

(** [n = n*10 + int(ch)] over the digits, without any bound. *)
Definition decimal_value (ds : list ascii) : Z :=
  fold_left (fun n ch => n * 10 + digit_val ch) ds 0.

Inductive NumError : Type := ErrSyntax | ErrRange.

(** [strconv.Atoi]: optional sign, then decimal digits; a value out of the
    range of [int] is clamped and reported as [ErrRange]. *)
Definition Atoi (s : string) : Z * option NumError :=
  let '(neg, ds) :=
    match bytes s with
    | c :: tl =>
        if Ascii.eqb c "-" then (true, tl)
        else if Ascii.eqb c "+" then (false, tl)
        else (false, c :: tl)
    | [] => (false, [])
    end in
  match ds with
  | [] => (0, Some ErrSyntax)
  | _ =>
      if forallb is_digit ds then
        let un := decimal_value ds in
        if negb neg && (2 ^ 63 <=? un) then (MaxInt64, Some ErrRange)
        else if neg && (2 ^ 63 <? un) then (MinInt64, Some ErrRange)
        else ((if neg then - un else un), None)
      else (0, Some ErrSyntax)
  end.

(** Decimal digits of a non-negative number; 20 digits cover 64 bits. *)
Fixpoint digits_of (fuel : nat) (n : Z) : list ascii :=
  match fuel with
  | O => []
  | S f => (if n <? 10 then [] else digits_of f (n / 10))
             ++ [digit_char (n mod 10)]
  end.

(** [fmt.Sprintf("%d", n)]. *)
Definition Itoa (n : Z) : string :=
  if n <? 0 then String "-" (str (digits_of 20 (- n)))
  else str (digits_of 20 n).

(** [strings.HasPrefix]. *)
Definition HasPrefix (s p : string) : bool := String.prefix p s.

(** [unicode.IsSpace] on the UTF-8 encoding: the length of the white-space
    rune that starts the byte sequence, if one does.  The runes are
    U+0009..U+000D, U+0020, U+0085, U+00A0, U+1680, U+2000..U+200A,
    U+2028, U+2029, U+202F, U+205F and U+3000. *)
Local Open Scope nat_scope.
Definition space_rune (l : list nat) : bool :=
  match l with
  | [c] => (9 <=? c) && (c <=? 13) || (c =? 32)
  | [194; c] => (c =? 133) || (c =? 160)
  | [225; 154; 128] => true
  | [226; 128; c] =>
      (128 <=? c) && (c <=? 138) || (c =? 168) || (c =? 169) || (c =? 175)
  | [226; 129; 159] => true
  | [227; 128; 128] => true
  | _ => false
  end.
Local Close Scope nat_scope.

Definition leading_space (l : list ascii) : option nat :=
  let ns := nat_of_ascii <$> l in
  if space_rune (take 1 ns) then Some 1%nat
  else if space_rune (take 2 ns) then Some 2%nat
  else if space_rune (take 3 ns) then Some 3%nat
  else None.

Fixpoint trim_left (fuel : nat) (l : list ascii) : list ascii :=
  match fuel with
  | O => l
  | S f =>
      match leading_space l with
      | Some k => trim_left f (drop k l)
      | None => l
      end
  end.

(** [strings.TrimSpace]: white-space runes are removed from both ends.  A
    rune has at least one byte, so [length] iterations are enough; the
    trailing runes are found on the reversed byte sequence. *)
Definition trailing_space (r : list ascii) : option nat :=
  let ns := nat_of_ascii <$> r in
  if space_rune (rev (take 1 ns)) then Some 1%nat
  else if space_rune (rev (take 2 ns)) then Some 2%nat
  else if space_rune (rev (take 3 ns)) then Some 3%nat
  else None.

Fixpoint trim_right_rev (fuel : nat) (r : list ascii) : list ascii :=
  match fuel with
  | O => r
  | S f =>
      match trailing_space r with
      | Some k => trim_right_rev f (drop k r)
      | None => r
      end
  end.

Definition TrimSpace (s : string) : string :=
  let l := trim_left (length (bytes s)) (bytes s) in
  str (rev (trim_right_rev (length l) (rev l))).

End Go.

(* ================================================================== *)
(** ** Go runtime: the part of [regexp] that [versionRegex] uses *)
(* ================================================================== *)

Module Regexp.

(** Syntax.  [Group i r] is the [i]-th capturing group; a non-capturing
    group [(?:r)] is [r] itself. *)
Inductive regex : Type :=
| Lit (c : ascii)
| Class (p : ascii -> bool)
| Cat (r1 r2 : regex)
| Quest (r : regex)
| Plus (r : regex)
| Group (i : nat) (r : regex)
| BeginText
| EndText.

(** A position in the text with the groups captured so far. *)
Record mstate : Type := MState {
  pos : nat;
  rest : list ascii;
  caps : gmap nat (list ascii)
}.

Definition advance (st : mstate) (tl : list ascii) : mstate :=
  MState (S (pos st)) tl (caps st).

(** [r+], greedy: after one more match of [r] (the matcher [m]), first try
    to repeat, then to stop.  A repetition consumes at least one byte in
    the patterns used here, so [S (length (rest st))] rounds suffice. *)
Fixpoint plus_loop (m : mstate → list mstate) (n : nat) (st : mstate)
  : list mstate :=
  match n with
  | O => []
  | S n' => m st ≫= (fun st' => plus_loop m n' st' ++ [st'])
  end.

(** Backtracking search: all the ways [r] matches at [st], in the order of
    preference of Go's leftmost-first semantics (greedy operators try the
    longer alternative first). *)
Fixpoint run (r : regex) (st : mstate) : list mstate :=
  match r with
  | Lit c =>
      match rest st with
      | x :: tl => if Ascii.eqb x c then [advance st tl] else []
      | [] => []
      end
  | Class p =>
      match rest st with
      | x :: tl => if p x then [advance st tl] else []
      | [] => []
      end
  | Cat r1 r2 => run r1 st ≫= run r2
  | Quest r1 => run r1 st ++ [st]
  | Plus r1 => plus_loop (run r1) (S (length (rest st))) st
  | Group i r1 =>
      (fun st' =>
         MState (pos st') (rest st')
           (<[i := take (pos st' - pos st) (rest st)]> (caps st')))
        <$> run r1 st
  | BeginText => if (pos st =? 0)%nat then [st] else []
  | EndText => match rest st with [] => [st] | _ :: _ => [] end
  end.

Fixpoint NumSubexp (r : regex) : nat :=
  match r with
  | Cat r1 r2 => (NumSubexp r1 + NumSubexp r2)%nat
  | Quest r1 | Plus r1 => NumSubexp r1
  | Group _ r1 => S (NumSubexp r1)
  | _ => O
  end.

(** [Regexp.FindStringSubmatch]: the leftmost match; element 0 is the
    matched text, element [i] the text of group [i], empty when the
    group took no part in the match.  [None] is the [nil] slice. *)
Definition FindStringSubmatch (re : regex) (s : string)
  : option (list string) :=
  let text := Go.bytes s in
  let attempt (off : nat) : list (list string) :=
    (fun st' =>
       Go.str (take (pos st' - off) (drop off text))
       :: ((fun i => Go.str (default [] (caps st' !! i)))
             <$> seq 1 (NumSubexp re)))
      <$> run re (MState off (drop off text) ∅) in
  head (seq 0 (S (length text)) ≫= attempt).

End Regexp.

(* ================================================================== *)
(** ** package version *)
(* ================================================================== *)

Module version.

Import Regexp.

(** [time.Time], an instant; the zero value is [0]. *)
Definition Time : Type := Z.

Record Version : Type := mkVersion {
  Tag : string;
  Major : Z;
  Minor : Z;
  Patch : Z;
  RC : Z;
  FullVersion : string;
  IsRC : bool;
  FetchedAt : Time
}.

Record VersionGroup : Type := mkGroup {
  MajorMinor : string;
  Versions : list Version
}.

Inductive ParseError : Type :=
| InvalidFormat (tag : string).

Inductive result (A : Type) : Type :=
| Ok (a : A)
| Err (e : ParseError).
Arguments Ok {A} a.
Arguments Err {A} e.

Definition digits1 : regex := Plus (Class Go.is_digit).

Declare Scope regex_scope.
Delimit Scope regex_scope with re.
Infix "·" := Cat (at level 41, right associativity) : regex_scope.

(** [^go(\d+)\.(\d+)(?:\.(\d+))?(?:rc(\d+))?$] *)
Definition versionRegex : regex :=
  (BeginText · Lit "g" · Lit "o"
     · Group 1 digits1 · Lit "."
     · Group 2 digits1
     · Quest (Lit "." · Group 3 digits1)
     · Quest (Lit "r" · Lit "c" · Group 4 digits1)
     · EndText)%re.

(** [matches[i]] *)
Definition sub (matches : list string) (i : nat) : string :=
  nth i matches "".

Definition ParseVersion (tag : string) : result Version :=
  match FindStringSubmatch versionRegex tag with
  | None => Err (InvalidFormat tag)
  | Some matches =>
      let major := fst (Go.Atoi (sub matches 1)) in
      let minor := fst (Go.Atoi (sub matches 2)) in
      let patch :=
        if decide (sub matches 3 ≠ "") then fst (Go.Atoi (sub matches 3))
        else 0 in
      let '(rc, isRC) :=
        if decide (sub matches 4 ≠ "")
        then (fst (Go.Atoi (sub matches 4)), true)
        else (0, false) in
      let fullVersion := Go.Itoa major +:+ "." +:+ Go.Itoa minor in
      let fullVersion :=
        if 0 <? patch then fullVersion +:+ "." +:+ Go.Itoa patch
        else fullVersion in
      let fullVersion :=
        if isRC then fullVersion +:+ "rc" +:+ Go.Itoa rc
        else fullVersion in
      Ok {| Tag := tag; Major := major; Minor := minor; Patch := patch;
            RC := rc; FullVersion := fullVersion; IsRC := isRC;
            FetchedAt := 0 |}
  end.

Definition GetMajorMinor (v : Version) : string :=
  Go.Itoa (Major v) +:+ "." +:+ Go.Itoa (Minor v).

Definition Compare (v other : Version) : Z :=
  if negb (Major v =? Major other) then
    if Major v <? Major other then -1 else 1
  else if negb (Minor v =? Minor other) then
    if Minor v <? Minor other then -1 else 1
  else if negb (Patch v =? Patch other) then
    if Patch v <? Patch other then -1 else 1
  else if IsRC v && negb (IsRC other) then -1
  else if negb (IsRC v) && IsRC other then 1
  else if IsRC v && IsRC other then
    if RC v <? RC other then -1
    else if RC v >? RC other then 1
    else 0
  else 0.

(** The two nested loops that sort a slice in place,
    [for i := 0; i < len(a)-1; i++ { for j := i+1; j < len(a); j++ {
       if a[i] > a[j] { a[i], a[j] = a[j], a[i] } } }],
    over a comparison [gt] that may panic ([None]). *)
Section ExchangeSort.
Context {A : Type} (gt : A → A → option bool).

Definition swap_if_gt (i : nat) (a : option (list A)) (j : nat)
  : option (list A) :=
  a ← a;
  x ← a !! i;
  y ← a !! j;
  b ← gt x y;
  Some (if b : bool then <[j := x]> (<[i := y]> a) else a).

Definition inner_loop (a : option (list A)) (i : nat) : option (list A) :=
  a ← a;
  foldl (swap_if_gt i) (Some a) (seq (S i) (length a - S i)).

Definition exchange_sort (a : list A) : option (list A) :=
  foldl inner_loop (Some a) (seq 0 (length a - 1)).
End ExchangeSort.

Definition version_gt (v1 v2 : Version) : option bool :=
  Some (Compare v1 v2 >? 0).

(** [v1, _ := ParseVersion(...)] leaves [v1] nil when the key does not
    parse, and [v1.Compare(v2)] then panics. *)
Definition group_gt (g1 g2 : VersionGroup) : option bool :=
  match ParseVersion ("go" +:+ MajorMinor g1 +:+ ".0"),
        ParseVersion ("go" +:+ MajorMinor g2 +:+ ".0") with
  | Ok v1, Ok v2 => Some (Compare v1 v2 >? 0)
  | _, _ => None
  end.

(** [groups[key] = append(groups[key], v)] *)
Definition add_version (groups : gmap string (list Version)) (v : Version)
  : gmap string (list Version) :=
  let key := GetMajorMinor v in
  <[key := default [] (groups !! key) ++ [v]]> groups.

Definition build_groups (versions : list Version)
  : gmap string (list Version) :=
  foldl add_version ∅ versions.

Definition sort_group (kv : string * list Version) : option VersionGroup :=
  vers ← exchange_sort version_gt kv.2;
  Some {| MajorMinor := kv.1; Versions := vers |}.

(** The part of GroupVersions after the grouping, for one order [entries]
    in which [range groups] visits the map. *)
Definition GroupVersions_from (entries : list (string * list Version))
  : option (list VersionGroup) :=
  result ← mapM sort_group entries;
  exchange_sort group_gt result.

(** Go leaves the iteration order of [range] over a map unspecified: every
    enumeration of the map's entries is a possible run. *)
Definition GroupVersions_runs (versions : list Version)
    (out : option (list VersionGroup)) : Prop :=
  ∃ entries,
    entries ≡ₚ map_to_list (build_groups versions)
    ∧ out = GroupVersions_from entries.

(** One run, for evaluation. *)
Definition GroupVersions (versions : list Version)
  : option (list VersionGroup) :=
  GroupVersions_from (map_to_list (build_groups versions)).

Definition NormalizeVersion (version : string) : string :=
  let version := Go.TrimSpace version in
  if negb (Go.HasPrefix version "go") then "go" +:+ version else version.

End version.


(* ================================================================== *)
(** ** package github *)
(* ================================================================== *)

Module github.

Import version.

Record FetchOptions : Type := mkOptions {
  MinVersion : string;
  MinYear : Z;
  AllVersions : bool
}.

Definition DefaultMinVersion : string := "go1.10".

(** [type Option func(opts)], [opts] a pointer to the options: a function
    from the options before to the options after. *)
Definition Option : Type := FetchOptions → FetchOptions.

Definition WithMinVersion (v : string) : Option :=
  fun opts => mkOptions v (MinYear opts) (AllVersions opts).

Definition WithMinYear (year : Z) : Option :=
  fun opts => mkOptions (MinVersion opts) year (AllVersions opts).

Definition WithAllVersions : Option :=
  fun opts => mkOptions (MinVersion opts) (MinYear opts) true.

(** What [client.Repositories.ListTags] can return.  The error is one of
    go-github's [*RateLimitError], [*AbuseRateLimitError], or anything else
    (transport failures, a failed status check, an expired context). *)
Inductive GhError : Type :=
| RateLimitError
| AbuseRateLimitError
| OtherError (msg : string).

Record Response : Type := mkResponse {
  StatusCode : Z;
  NextPage : Z
}.

Record ListTagsReply : Type := mkReply {
  reply_tags : list string;       (* tag.GetName() of each entry *)
  reply_resp : option Response;   (* None is a nil *Response *)
  reply_err : option GhError
}.

(** The errors FetchTags builds with [fmt.Errorf]. *)
Inductive FetchError : Type :=
| InvalidMinVersion (minVersion : string) (cause : ParseError)
| Timeout
| RateLimited
| AbuseDetected
| RequestFailed (page : Z) (cause : GhError)
| BadStatus (status : Z) (page : Z).

Definition StatusOK : Z := 200.

(** The counters and the result slice while one page is processed. *)
Record PageState : Type := mkPage {
  allTags : list string;
  newTagsCount : nat;
  existingCount : nat;
  skippedCount : nat;
  allExistingFound : bool
}.

(** [estimatedYear := 2012 + (v.Major-1)*1 + (v.Minor/6)*1] *)
Definition estimatedYear (v : Version) : Z :=
  Go.wrap64
    (Go.wrap64 (2012 + Go.wrap64 (Go.wrap64 (Major v - 1) * 1))
     + Go.wrap64 (Go.div (Minor v) 6 * 1)).

(** The value of [shouldInclude] after the filters were applied. *)
Definition shouldInclude (opts : FetchOptions) (minVersion : option Version)
    (v : Version) : bool :=
  let shouldInclude := true in
  if negb (AllVersions opts) then
    let shouldInclude :=
      match minVersion with
      | Some m => if Compare v m <? 0 then false else shouldInclude
      | None => shouldInclude
      end in
    if (MinYear opts >? 0) && shouldInclude then
      if estimatedYear v <? MinYear opts then false else shouldInclude
    else shouldInclude
  else shouldInclude.

(** [existingTags != nil && existingTags[tagName]]: a nil map is the empty
    map, a missing key reads as false. *)
Definition known (existingTags : gmap string bool) (tagName : string) : bool :=
  default false (existingTags !! tagName).

(** [for _, tag := range tags { ... }], with [n = len(tags)]. *)
Fixpoint processTags (existingTags : gmap string bool) (opts : FetchOptions)
    (minVersion : option Version) (n : nat) (tags : list string)
    (ps : PageState) : PageState :=
  match tags with
  | [] => ps
  | tagName :: tl =>
      if known existingTags tagName then
        let ps := mkPage (allTags ps) (newTagsCount ps) (S (existingCount ps))
                    (skippedCount ps) (allExistingFound ps) in
        if (existingCount ps =? n)%nat then
          (* break *)
          mkPage (allTags ps) (newTagsCount ps) (existingCount ps)
            (skippedCount ps) true
        else processTags existingTags opts minVersion n tl ps
      else
        match ParseVersion tagName with
        | Err _ =>
            processTags existingTags opts minVersion n tl
              (mkPage (allTags ps) (newTagsCount ps) (existingCount ps)
                 (S (skippedCount ps)) (allExistingFound ps))
        | Ok v =>
            if shouldInclude opts minVersion v then
              processTags existingTags opts minVersion n tl
                (mkPage (allTags ps ++ [tagName]) (S (newTagsCount ps))
                   (existingCount ps) (skippedCount ps) (allExistingFound ps))
            else
              processTags existingTags opts minVersion n tl
                (mkPage (allTags ps) (newTagsCount ps) (existingCount ps)
                   (S (skippedCount ps)) (allExistingFound ps))
        end
  end.

(** What a call returns, and the pages it requested on the way. *)
Record FetchResult : Type := mkResult {
  tags : list string;
  err : option FetchError;
  requests : list Z
}.

(** The options after every setter was applied to the zero value and the
    default minimum version was filled in. *)
Definition resolveOptions (options : list Option) : FetchOptions :=
  let opts := foldl (fun opts opt => opt opts) (mkOptions "" 0 false) options in
  if bool_decide (MinVersion opts = "") && negb (AllVersions opts)
  then mkOptions DefaultMinVersion (MinYear opts) (AllVersions opts)
  else opts.

(** The parsed minimum version: [Ok None] is the nil pointer left when no
    filter applies, [Err] the parse error that makes FetchTags return. *)
Definition parseMinVersion (opts : FetchOptions) : result (option Version) :=
  if negb (bool_decide (MinVersion opts = "")) && negb (AllVersions opts) then
    match ParseVersion (NormalizeVersion (MinVersion opts)) with
    | Ok v => Ok (Some v)
    | Err e => Err e
    end
  else Ok None.

Section Pipeline.

(** Everything outside the program: the clock behind the context's
    deadline and the remote endpoint.  [ctxDone w] tells whether
    [ctx.Done()] is ready in the world [w]; [ListTags w page perPage] is one
    request, with the world after it. *)
Context {World : Type}.
Context (ctxDone : World → bool).
Context (ListTags : World → Z → Z → ListTagsReply * World).

Definition perPage : Z := 100.

(** The [for { ... }] loop.  [fuel] bounds the number of iterations of the
    model; [None] means the bound was reached.  [allExistingFound] is false
    whenever an iteration starts, since the loop is left once it is set. *)
Fixpoint fetchLoop (existingTags : gmap string bool) (opts : FetchOptions)
    (minVersion : option Version) (fuel : nat) (w : World) (page : Z)
    (acc : list string) (reqs : list Z) : option (FetchResult * World) :=
  match fuel with
  | O => None
  | S fuel' =>
      if ctxDone w then Some (mkResult acc (Some Timeout) reqs, w)
      else
        let '(reply, w') := ListTags w page perPage in
        let reqs := reqs ++ [page] in
        match reply_err reply with
        | Some e =>
            let fetchErr :=
              match e with
              | RateLimitError => RateLimited
              | AbuseRateLimitError => AbuseDetected
              | OtherError _ => RequestFailed page e
              end in
            Some (mkResult acc (Some fetchErr) reqs, w')
        | None =>
            let badStatus :=
              match reply_resp reply with
              | Some r =>
                  if negb (StatusCode r =? StatusOK) then Some (StatusCode r)
                  else None
              | None => None
              end in
            match badStatus with
            | Some code =>
                Some (mkResult acc (Some (BadStatus code page)) reqs, w')
            | None =>
                match reply_tags reply with
                | [] => Some (mkResult acc None reqs, w')
                | _ :: _ =>
                    let ps :=
                      processTags existingTags opts minVersion
                        (length (reply_tags reply)) (reply_tags reply)
                        (mkPage acc 0 0 0 false) in
                    if allExistingFound ps then
                      Some (mkResult (allTags ps) None reqs, w')
                    else
                      match reply_resp reply with
                      | None => Some (mkResult (allTags ps) None reqs, w')
                      | Some r =>
                          if NextPage r =? 0 then
                            Some (mkResult (allTags ps) None reqs, w')
                          else
                            fetchLoop existingTags opts minVersion fuel' w'
                              (NextPage r) (allTags ps) reqs
                      end
                end
            end
        end
  end.

(** FetchTags, run in the world [w]. *)
Definition FetchTags (existingTags : gmap string bool)
    (options : list Option) (fuel : nat) (w : World)
    : option (FetchResult * World) :=
  let opts := resolveOptions options in
  match parseMinVersion opts with
  | Err parseErr =>
      Some (mkResult [] (Some (InvalidMinVersion (MinVersion opts) parseErr))
              [], w)
  | Ok minVersion =>
      fetchLoop existingTags opts minVersion fuel w 1 [] []
  end.

End Pipeline.
End github.

Import Regexp version github.

(* ================================================================== *)
(** ** package cmd: runVersions and runInstall *)
(* ================================================================== *)

Module cmd.

(** [version.VersionsData], what the cache file holds; its field FetchedAt
    is [DataFetchedAt] here, apart from the field of a version. *)
Record VersionsData : Type := mkData {
  DataFetchedAt : Time;
  Groups : list VersionGroup
}.

(** The flags of the [versions] command that the update branch reads. *)
Record Flags : Type := mkFlags {
  flag_all : bool;
  flag_min_version : string;
  flag_min_year : Z
}.

(** [existingTags[v.Tag] = true] for every version of every cached group;
    [cachedData] is nil ([None]) when there is no cache file. *)
Definition existingTagsOf (cachedData : option VersionsData)
  : gmap string bool :=
  match cachedData with
  | Some data =>
      foldl (λ existingTags group,
               foldl (λ existingTags v, <[Tag v := true]> existingTags)
                 existingTags (Versions group))
        ∅ (Groups data)
  | None => ∅
  end.

(** [fetchOptions], built from the flags. *)
Definition fetchOptionsOf (flags : Flags) : list Option :=
  if flag_all flags then [WithAllVersions]
  else
    (if negb (bool_decide (flag_min_version flags = ""))
     then [WithMinVersion (flag_min_version flags)] else [])
    ++ (if flag_min_year flags >? 0
        then [WithMinYear (flag_min_year flags)] else []).

(** [v.FetchedAt = now] *)
Definition setFetchedAt (v : Version) (now : Time) : Version :=
  mkVersion (Tag v) (Major v) (Minor v) (Patch v) (RC v) (FullVersion v)
    (IsRC v) now.

(** The versions of the cache, in the order of the two nested loops. *)
Definition cachedVersions (cachedData : option VersionsData) : list Version :=
  match cachedData with
  | Some data =>
      foldl (λ allVersionsList group,
               foldl (λ allVersionsList v, allVersionsList ++ [v])
                 allVersionsList (Versions group))
        [] (Groups data)
  | None => []
  end.

Section RunVersions.

(** The world outside: the endpoint and the deadline of FetchTags, and the
    clock that [time.Now] reads. *)
Context {World : Type}.
Context (ctxDone : World → bool).
Context (ListTags : World → Z → Z → ListTagsReply * World).
Context (Now : World → Time * World).

(** [for _, tag := range tags]: a tag that does not parse is skipped, the
    others are stamped with the current time. *)
Definition parseNewTags (tags : list string) (w : World)
  : list Version * World :=
  foldl (λ '(newVersions, w) tag,
           match ParseVersion tag with
           | Err _ => (newVersions, w)
           | Ok v =>
               let '(now, w') := Now w in
               (newVersions ++ [setFetchedAt v now], w')
           end)
    ([], w) tags.

(** The branch [if shouldUpdate { ... }] up to the value of [versionsData],
    for one order [groups] in which GroupVersions may return; the error of
    FetchTags is only logged.  [None] is a panic of GroupVersions. *)
Definition updateVersions_runs (cachedData : option VersionsData)
    (flags : Flags) (fuel : nat) (w : World)
    (out : option (VersionsData * World)) : Prop :=
  ∃ res w1,
    FetchTags ctxDone ListTags (existingTagsOf cachedData)
      (fetchOptionsOf flags) fuel w = Some (res, w1)
    ∧ ∃ groups,
        GroupVersions_runs
          (cachedVersions cachedData ++ (parseNewTags (tags res) w1).1) groups
        ∧ out = (groups ← groups;
                 let '(now, w3) := Now (parseNewTags (tags res) w1).2 in
                 Some (mkData now groups, w3)).

(** One run, for evaluation. *)
Definition updateVersions (cachedData : option VersionsData) (flags : Flags)
    (fuel : nat) (w : World) : option (VersionsData * World) :=
  '(res, w1) ← FetchTags ctxDone ListTags (existingTagsOf cachedData)
                 (fetchOptionsOf flags) fuel w;
  let '(newVersions, w2) := parseNewTags (tags res) w1 in
  groups ← GroupVersions (cachedVersions cachedData ++ newVersions);
  let '(now, w3) := Now w2 in
  Some (mkData now groups, w3).

End RunVersions.

(** The search of runInstall for [versionStr] in the cache: the inner loop
    over the versions of one group, left at the first hit. *)
Fixpoint foundInVersions (versions : list Version) (versionStr : string)
  : bool :=
  match versions with
  | [] => false
  | v :: tl =>
      if bool_decide (Tag v = versionStr) then true
      else foundInVersions tl versionStr
  end.

(** The outer loop over the groups, left once [found] is set. *)
Fixpoint foundInGroups (groups : list VersionGroup) (versionStr : string)
  : bool :=
  match groups with
  | [] => false
  | group :: tl =>
      if foundInVersions (Versions group) versionStr then true
      else foundInGroups tl versionStr
  end.

(** runInstall prints its warning: a cache was loaded ([None] stands for a
    missing or unreadable cache file) and the normalized argument was not
    found in it. *)
Definition installWarns (cachedData : option VersionsData) (arg : string)
  : bool :=
  match cachedData with
  | Some data => negb (foundInGroups (Groups data) (NormalizeVersion arg))
  | None => false
  end.

End cmd.

Import cmd.

(* ================================================================== *)
(** ** Definitions used to state the properties *)
(* ================================================================== *)

(** The order of the specification, in its words: lexicographic over
    (major, minor, patch); for equal (major, minor, patch) a release
    candidate is below a final release, and between two release candidates
    the smaller candidateNumber is below. *)
Definition version_lt (a b : Version) : Prop :=
  Major a < Major b
  ∨ Major a = Major b
    ∧ (Minor a < Minor b
       ∨ Minor a = Minor b
         ∧ (Patch a < Patch b
            ∨ Patch a = Patch b
              ∧ (IsRC a = true ∧ IsRC b = false
                 ∨ IsRC a = true ∧ IsRC b = true ∧ RC a < RC b))).

Definition digit (c : ascii) : Prop := Go.is_digit c = true.

(** The longest run of digits at the head of [l], and what follows it. *)
Fixpoint span_digits (l : list ascii) : list ascii * list ascii :=
  match l with
  | c :: tl =>
      if Go.is_digit c then
        let '(ds, r) := span_digits tl in (c :: ds, r)
      else ([], l)
  | [] => ([], [])
  end.

Definition no_digit_ahead (l : list ascii) : Prop :=
  match l with c :: _ => Go.is_digit c = false | [] => True end.

Definition rejects_digits (f : mstate → list mstate) : Prop :=
  ∀ p c tl cs, Go.is_digit c = true → f (MState p (c :: tl) cs) = [].

Record TagParts : Type := mkParts {
  p_major : list ascii;
  p_minor : list ascii;
  p_patch : option (list ascii);
  p_rc : option (list ascii)
}.

Definition is_int (ds : list ascii) : Prop := ds ≠ [] ∧ Forall digit ds.

Definition parts_wf (g : TagParts) : Prop :=
  is_int (p_major g) ∧ is_int (p_minor g)
  ∧ (∀ p, p_patch g = Some p → is_int p)
  ∧ (∀ r, p_rc g = Some r → is_int r).

Definition assemble (g : TagParts) : list ascii :=
  Go.bytes "go" ++ p_major g ++ Go.bytes "." ++ p_minor g
    ++ match p_patch g with Some p => Go.bytes "." ++ p | None => [] end
    ++ match p_rc g with Some r => Go.bytes "rc" ++ r | None => [] end.

Definition captures (g : TagParts) : gmap nat (list ascii) :=
  let cs := <[2%nat := p_minor g]> (<[1%nat := p_major g]> ∅) in
  let cs := match p_patch g with Some p => <[3%nat := p]> cs | None => cs end in
  match p_rc g with Some r => <[4%nat := r]> cs | None => cs end.

(** Continuation-passing view of [run]. *)
Definition runk (r : regex) (k : mstate → list mstate) (st : mstate)
  : list mstate := run r st ≫= k.

(** The tails of [versionRegex]. *)
Definition k_end : mstate → list mstate := runk EndText (λ x, [x]).
Definition k_rc : mstate → list mstate :=
  runk (Quest (Cat (Lit "r") (Cat (Lit "c") (Group 4 digits1)))) k_end.
Definition k_patch : mstate → list mstate :=
  runk (Quest (Cat (Lit ".") (Group 3 digits1))) k_rc.
Definition k_minor : mstate → list mstate :=
  runk (Lit ".") (runk (Group 2 digits1) k_patch).

Definition patch_part (pt : option (list ascii)) : list ascii :=
  match pt with Some p => Go.bytes "." ++ p | None => [] end.
Definition rc_part (rc : option (list ascii)) : list ascii :=
  match rc with Some r => Go.bytes "rc" ++ r | None => [] end.
Definition opt_int (o : option (list ascii)) : Prop := ∀ ds, o = Some ds → is_int ds.
Definition cap_opt (i : nat) (o : option (list ascii)) (cs : gmap nat (list ascii)) :=
  match o with Some ds => <[i := ds]> cs | None => cs end.

(** The value [strconv.Atoi] gives to an integer of the grammar. *)
Definition int_value (ds : list ascii) : Z :=
  Z.min (Go.decimal_value ds) Go.MaxInt64.

Definition render (major minor patch rc : Z) (isRC : bool) : string :=
  let s := Go.Itoa major +:+ "." +:+ Go.Itoa minor in
  let s := if 0 <? patch then s +:+ "." +:+ Go.Itoa patch else s in
  if isRC then s +:+ "rc" +:+ Go.Itoa rc else s.

Definition version_of (tag : string) (g : TagParts) : Version :=
  let major := int_value (p_major g) in
  let minor := int_value (p_minor g) in
  let patch := match p_patch g with Some p => int_value p | None => 0 end in
  let rc := match p_rc g with Some r => int_value r | None => 0 end in
  let isRC := bool_decide (is_Some (p_rc g)) in
  {| Tag := tag; Major := major; Minor := minor; Patch := patch; RC := rc;
     FullVersion := render major minor patch rc isRC;
     IsRC := isRC; FetchedAt := 0 |}.

Definition matches_grammar (tag : string) (g : TagParts) : Prop :=
  parts_wf g ∧ Go.bytes tag = assemble g.

(** Functional reading of the loops: [select x l] carries the current
    [a[i]] along the rest of the slice. *)
Fixpoint select {A} (gtb : A → A → bool) (x : A) (l : list A) : A * list A :=
  match l with
  | [] => (x, [])
  | y :: l' =>
      if gtb x y then let '(m, r) := select gtb y l' in (m, x :: r)
      else let '(m, r) := select gtb x l' in (m, y :: r)
  end.

Fixpoint selection_sort {A} (gtb : A → A → bool) (n : nat) (l : list A)
  : list A :=
  match n, l with
  | S n', x :: tl => let '(m, r) := select gtb x tl in m :: selection_sort gtb n' r
  | _, _ => l
  end.

(** The order the sort establishes: [x] is not above [y]. *)
Definition not_gt {A} (gtb : A → A → bool) (x y : A) : Prop := gtb x y = false.

Definition Parsed (v : Version) : Prop := ∃ tag, ParseVersion tag = Ok v.

Definition in_range (v : Version) : Prop :=
  0 ≤ Major v ≤ Go.MaxInt64 ∧ 0 ≤ Minor v ≤ Go.MaxInt64.

(** The tag that the group sort parses for a key. *)
Definition key_tag (key : string) : string := "go" +:+ key +:+ ".0".

Definition key_parts (major minor : Z) : TagParts :=
  mkParts (Go.digits_of 20 major) (Go.digits_of 20 minor)
    (Some (Go.bytes "0")) None.

(** The comparison of the version sort. *)
Definition version_gtb (a b : Version) : bool := Compare a b >? 0.
Definition version_le (a b : Version) : Prop := Compare a b ≤ 0.

Definition with_key (k : string) (vs : list Version) : list Version :=
  filter (λ v, GetMajorMinor v = k) vs.

Definition sort_versions (l : list Version) : list Version :=
  selection_sort version_gtb (length l - 1) l.

Definition to_group (kv : string * list Version) : VersionGroup :=
  mkGroup kv.1 (sort_versions kv.2).

(** No two distinct values of the collection compare equal. *)
Definition no_ties (vs : list Version) : Prop :=
  ∀ a b, a ∈ vs → b ∈ vs → Compare a b = 0 → a = b.

(** The sorted buckets, as a map: what every run computes. *)
Definition sorted_groups (vs : list Version) : gmap string (list Version) :=
  sort_versions <$> build_groups vs.

(** The groups of a run, before the group sort, are the sorted buckets in
    some order. *)
Definition canonical_groups (vs : list Version) : list VersionGroup :=
  (λ kv, mkGroup kv.1 kv.2) <$> map_to_list (sorted_groups vs).

(** (major, minor) of [a] is above that of [b]. *)
Definition mm_gtb (a b : Version) : bool :=
  (Major b <? Major a) || ((Major a =? Major b) && (Minor b <? Minor a)).

Definition mm_lt (a b : Version) : Prop :=
  Major a < Major b ∨ Major a = Major b ∧ Minor a < Minor b.

Definition keyed (g : VersionGroup) : Prop :=
  ∃ v, in_range v ∧ MajorMinor g = GetMajorMinor v.

Definition group_gtb (g1 g2 : VersionGroup) : bool :=
  default false (group_gt g1 g2).

(** A group of the output: a non-empty bucket holding exactly the versions
    of the input with the group's key, ascending. *)
Definition group_of (vs : list Version) (g : VersionGroup) : Prop :=
  Versions g ≠ []
  ∧ Versions g ≡ₚ with_key (MajorMinor g) vs
  ∧ StronglySorted version_le (Versions g).

(** Groups ascending by (major, minor). *)
Definition groups_ascending (gs : list VersionGroup) : Prop :=
  StronglySorted
    (λ g1 g2, ∀ v1 v2, v1 ∈ Versions g1 → v2 ∈ Versions g2 → mm_lt v1 v2) gs.

(** The caller's loop: parse every tag, skip the ones that fail. *)
Definition parse_all (tags : list string) : list Version :=
  omap (λ t, match ParseVersion t with Ok v => Some v | Err _ => None end) tags.

(** A tag of a page that FetchTags appends to its result. *)
Definition included_tag (existingTags : gmap string bool) (opts : FetchOptions)
    (minVersion : option Version) (t : string) : bool :=
  negb (known existingTags t)
  && match ParseVersion t with
     | Ok v => shouldInclude opts minVersion v
     | Err _ => false
     end.

Definition included (existingTags : gmap string bool) (opts : FetchOptions)
    (minVersion : option Version) (tags : list string) : list string :=
  filter (λ t, included_tag existingTags opts minVersion t = true) tags.

Definition all_known (existingTags : gmap string bool) (tags : list string)
  : Prop := Forall (λ t, known existingTags t = true) tags.

(** The error FetchTags makes of a failed request. *)
Definition classify (page : Z) (e : GhError) : FetchError :=
  match e with
  | RateLimitError => RateLimited
  | AbuseRateLimitError => AbuseDetected
  | OtherError _ => RequestFailed page e
  end.

Definition status_ok (reply : ListTagsReply) : Prop :=
  match reply_resp reply with
  | Some r => StatusCode r = StatusOK
  | None => True
  end.

(** Simulated endpoints: the world is the number of requests served. *)
Definition never_done : nat → bool := λ _, false.

Definition one_page (tags : list string) (next : Z)
  : nat → Z → Z → ListTagsReply * nat :=
  λ w _ _, (mkReply tags (Some (mkResponse StatusOK next)) None, S w).

Definition page_then_rate_limit (tags : list string)
  : nat → Z → Z → ListTagsReply * nat :=
  λ w page _,
    if page =? 1 then (mkReply tags (Some (mkResponse StatusOK 2)) None, S w)
    else (mkReply [] None (Some RateLimitError), S w).

(** The parts of the tag ["go" + fullVersion] of a version. *)
Definition canonical_parts (v : Version) : TagParts :=
  mkParts (Go.digits_of 20 (Major v)) (Go.digits_of 20 (Minor v))
    (if 0 <? Patch v then Some (Go.digits_of 20 (Patch v)) else None)
    (if IsRC v then Some (Go.digits_of 20 (RC v)) else None).

(** All the numbers of a version are values of [int] that are not
    negative. *)
Definition fields_in_range (v : Version) : Prop :=
  0 ≤ Major v ≤ Go.MaxInt64 ∧ 0 ≤ Minor v ≤ Go.MaxInt64
  ∧ 0 ≤ Patch v ≤ Go.MaxInt64 ∧ 0 ≤ RC v ≤ Go.MaxInt64.


(** The key of [v] is one the group sort cannot parse back. *)
Definition key_fails (v : Version) : Prop :=
  ∃ e, ParseVersion (key_tag (GetMajorMinor v)) = Err e.

Definition key_parsesb (key : string) : bool :=
  match ParseVersion (key_tag key) with Ok _ => true | Err _ => false end.

(** An ASCII white-space byte: tab, line feed, vertical tab, form feed,
    carriage return or space. *)
Definition ascii_space (c : ascii) : Prop :=
  Go.space_rune [nat_of_ascii c] = true.

(** An ASCII byte that is not white space. *)
Definition ascii_plain (c : ascii) : bool :=
  (nat_of_ascii c <? 128)%nat && negb (Go.space_rune [nat_of_ascii c]).

(** One of the three option setters of the package. *)
Definition setter (o : Option) : Prop :=
  (∃ v, o = WithMinVersion v) ∨ (∃ y, o = WithMinYear y) ∨ o = WithAllVersions.

(** The options before the default minimum version is filled in. *)
Definition applyOptions (options : list Option) (opts : FetchOptions)
  : FetchOptions := foldl (λ opts (opt : Option), opt opts) opts options.

(** The tags of the cache. *)
Definition cachedTags (cachedData : option VersionsData) : list string :=
  Tag <$> cachedVersions cachedData.

(** A clock for evaluation: the world counts the steps taken. *)
Definition tick : nat → Time * nat := λ w, (Z.of_nat w, S w).

(* ================================================================== *)
(** ** The order on versions *)
(* ================================================================== *)

Ltac compare_cases :=
  unfold Compare, version_lt;
  repeat match goal with
    | |- context [Z.gtb ?x ?y] => rewrite (Z.gtb_ltb x y)
    | |- context [Z.eqb ?x ?y] => destruct (Z.eqb_spec x y); simpl
    | |- context [Z.ltb ?x ?y] => destruct (Z.ltb_spec x y); simpl
    | |- context [IsRC ?v] => destruct (IsRC v); simpl
    end.

Lemma Compare_range a b : Compare a b = -1 ∨ Compare a b = 0 ∨ Compare a b = 1.
Proof. compare_cases; lia. Qed.

Lemma Compare_antisym a b : Compare a b = - Compare b a.
Proof. compare_cases; lia. Qed.

Lemma Compare_lt_iff a b : Compare a b = -1 ↔ version_lt a b.
Proof. compare_cases; intuition (try discriminate; try lia). Qed.

Lemma Compare_gt_iff a b : Compare a b = 1 ↔ version_lt b a.
Proof. rewrite <- Compare_lt_iff, (Compare_antisym a b). lia. Qed.

Lemma version_lt_trans a b c : version_lt a b → version_lt b c → version_lt a c.
Proof.
  unfold version_lt. destruct (IsRC a), (IsRC b), (IsRC c);
    intuition (try discriminate; try lia).
Qed.

Lemma Compare_le_trans a b c :
  Compare a b ≤ 0 → Compare b c ≤ 0 → Compare a c ≤ 0.
Proof. compare_cases; lia. Qed.

Lemma Compare_lt_le_trans a b c :
  Compare a b < 0 → Compare b c ≤ 0 → Compare a c < 0.
Proof. compare_cases; lia. Qed.

Lemma Compare_le_lt_trans a b c :
  Compare a b ≤ 0 → Compare b c < 0 → Compare a c < 0.
Proof. compare_cases; lia. Qed.

Lemma Compare_eq_iff a b :
  Compare a b = 0 ↔
  Major a = Major b ∧ Minor a = Minor b ∧ Patch a = Patch b
  ∧ IsRC a = IsRC b ∧ (IsRC a = true → RC a = RC b).
Proof. compare_cases; intuition (try discriminate; try lia). Qed.

(* ================================================================== *)
(** ** The matcher on digits *)
(* ================================================================== *)

Lemma span_digits_spec l ds r :
  span_digits l = (ds, r) → l = ds ++ r ∧ Forall digit ds ∧ no_digit_ahead r.
Proof.
  revert ds r. induction l as [|c tl IH]; intros ds r; simpl.
  - intros [= <- <-]. by repeat split.
  - destruct (Go.is_digit c) eqn:Hc.
    + destruct (span_digits tl) as [ds' r'] eqn:Hs. intros [= <- <-].
      destruct (IH _ _ eq_refl) as (-> & Hd & Hr). repeat split; auto.
    + intros [= <- <-]. by repeat split.
Qed.

Lemma span_digits_app ds r :
  Forall digit ds → no_digit_ahead r → span_digits (ds ++ r) = (ds, r).
Proof.
  induction 1 as [|c ds Hc Hds IH]; intros Hr; simpl.
  - destruct r as [|c tl]; simpl in *; [done|]. by rewrite Hr.
  - unfold digit in Hc. rewrite Hc, IH; auto.
Qed.

Lemma plus_loop_stuck p l cs n :
  no_digit_ahead l → plus_loop (run (Class Go.is_digit)) n (MState p l cs) = [].
Proof.
  intros Hl. destruct n as [|n]; [done|]. simpl.
  destruct l as [|c tl]; [done|]. simpl in Hl. by rewrite Hl.
Qed.

Lemma plus_loop_digits (f : mstate → list mstate) ds : ∀ n p r cs,
  Forall digit ds → ds ≠ [] → no_digit_ahead r → (length ds ≤ n)%nat →
  rejects_digits f →
  plus_loop (run (Class Go.is_digit)) n (MState p (ds ++ r) cs) ≫= f
  = f (MState (p + length ds) r cs).
Proof.
  induction ds as [|c ds IH]; intros n p r cs Hds Hne Hr Hn Hf; [done|].
  destruct n as [|n]; [simpl in Hn; lia|].
  inversion Hds as [|? ? Hc Hds']; subst. unfold digit in Hc.
  cbn [plus_loop run rest app]. rewrite Hc. rewrite bind_singleton.
  unfold advance; simpl. rewrite bind_app, bind_singleton.
  destruct ds as [|c' ds'].
  - simpl. rewrite plus_loop_stuck by done. simpl.
    by replace (p + 1)%nat with (S p) by lia.
  - rewrite IH; auto; [|simpl in *; lia].
    inversion Hds'; subst.
    change ((c' :: ds') ++ r) with (c' :: ds' ++ r).
    rewrite (Hf (S p) c' (ds' ++ r) cs) by done.
    rewrite app_nil_r. f_equal. f_equal. simpl. lia.
Qed.

(** A capturing group of digits followed by [f]. *)
Lemma group_digits_then i f p l cs :
  rejects_digits f →
  run (Group i digits1) (MState p l cs) ≫= f
  = match span_digits l with
    | ([], _) => []
    | (ds, r) => f (MState (p + length ds) r (<[i := ds]> cs))
    end.
Proof.
  intros Hf. destruct (span_digits l) as [ds r] eqn:Hs.
  apply span_digits_spec in Hs as (-> & Hds & Hr).
  cbn [run digits1]. rewrite list_fmap_bind.
  destruct ds as [|c ds].
  - simpl app. cbn [rest]. by rewrite plus_loop_stuck.
  - cbn [rest pos].
    rewrite (plus_loop_digits _ (c :: ds)); auto.
    + cbn [compose pos rest caps]. do 3 f_equal.
      replace (p + length (c :: ds) - p)%nat with (length (c :: ds)) by lia.
      by rewrite take_app_length.
    + rewrite length_app. lia.
    + intros p' c' tl cs' Hc'. cbn [compose pos rest caps]. by apply Hf.
Qed.

(* ================================================================== *)
(** ** The tails of the version pattern *)
(* ================================================================== *)

Lemma list_bind_assoc {A B C} (f : A → list B) (g : B → list C) (l : list A) :
  (l ≫= f) ≫= g = l ≫= (λ x, f x ≫= g).
Proof.
  induction l as [|x l IH]; [done|].
  by rewrite !bind_cons, bind_app, IH.
Qed.

Lemma runk_cat r1 r2 k st : runk (Cat r1 r2) k st = runk r1 (runk r2 k) st.
Proof. unfold runk. cbn [run]. apply list_bind_assoc. Qed.

Lemma runk_ext r k k' st : (∀ x, k x = k' x) → runk r k st = runk r k' st.
Proof. intros H. unfold runk. by apply list_bind_ext. Qed.

Lemma runk_lit c k p l cs :
  runk (Lit c) k (MState p l cs)
  = match l with
    | x :: tl => if Ascii.eqb x c then k (MState (S p) tl cs) else []
    | [] => []
    end.
Proof.
  unfold runk. cbn [run rest]. destruct l as [|x tl]; [done|].
  destruct (Ascii.eqb x c); [|done]. by rewrite bind_singleton.
Qed.

Lemma runk_quest r k st : runk (Quest r) k st = runk r k st ++ k st.
Proof. unfold runk. cbn [run]. by rewrite bind_app, bind_singleton. Qed.

Lemma runk_end k p l cs :
  runk EndText k (MState p l cs)
  = match l with [] => k (MState p [] cs) | _ :: _ => [] end.
Proof. unfold runk. cbn [run rest]. destruct l; [|done]. by rewrite bind_singleton. Qed.

Lemma runk_begin k p l cs :
  runk BeginText k (MState p l cs)
  = if (p =? 0)%nat then k (MState p l cs) else [].
Proof.
  unfold runk. cbn [run pos]. destruct (p =? 0)%nat; [|done].
  by rewrite bind_singleton.
Qed.

Lemma runk_group i k p l cs :
  rejects_digits k →
  runk (Group i digits1) k (MState p l cs)
  = match span_digits l with
    | ([], _) => []
    | (ds, r) => k (MState (p + length ds) r (<[i := ds]> cs))
    end.
Proof. apply group_digits_then. Qed.

Lemma run_runk r st : run r st = runk r (λ x, [x]) st.
Proof.
  unfold runk. induction (run r st) as [|x l IH]; [done|].
  by rewrite bind_cons, <- IH.
Qed.

Lemma digit_not c c' : Go.is_digit c = true → Go.is_digit c' = false → Ascii.eqb c c' = false.
Proof. intros H1 H2. destruct (Ascii.eqb_spec c c'); [congruence|done]. Qed.

Lemma k_end_rejects p c tl cs : k_end (MState p (c :: tl) cs) = [].
Proof. unfold k_end. by rewrite runk_end. Qed.

Lemma k_end_nil p cs : k_end (MState p [] cs) = [MState p [] cs].
Proof. unfold k_end. by rewrite runk_end. Qed.

Lemma k_rc_rejects : rejects_digits k_rc.
Proof.
  intros p c tl cs Hc. unfold k_rc.
  rewrite runk_quest, runk_cat, runk_lit, k_end_rejects.
  by rewrite (digit_not c "r").
Qed.

Lemma k_patch_rejects : rejects_digits k_patch.
Proof.
  intros p c tl cs Hc. unfold k_patch.
  rewrite runk_quest, runk_cat, runk_lit, k_rc_rejects by done.
  by rewrite (digit_not c ".").
Qed.

Lemma k_minor_rejects : rejects_digits k_minor.
Proof.
  intros p c tl cs Hc. unfold k_minor.
  rewrite runk_lit. by rewrite (digit_not c ".").
Qed.

Lemma k_end_rejects_digits : rejects_digits k_end.
Proof. intros p c tl cs _. apply k_end_rejects. Qed.

Lemma run_versionRegex st :
  run versionRegex st
  = runk BeginText (runk (Lit "g") (runk (Lit "o")
      (runk (Group 1 digits1) k_minor))) st.
Proof.
  rewrite run_runk. unfold versionRegex, k_minor, k_patch, k_rc, k_end.
  repeat (rewrite runk_cat; apply runk_ext; intros ?). done.
Qed.

(* ================================================================== *)
(** ** The pattern against the grammar *)
(* ================================================================== *)

Lemma no_digit_rc_part rc : no_digit_ahead (rc_part rc).
Proof. by destruct rc. Qed.

Lemma no_digit_patch_rc pt rc : no_digit_ahead (patch_part pt ++ rc_part rc).
Proof. destruct pt; [done|]. apply no_digit_rc_part. Qed.

Lemma k_rc_complete p cs rc :
  opt_int rc →
  k_rc (MState p (rc_part rc) cs)
  = [MState (p + length (rc_part rc)) [] (cap_opt 4 rc cs)].
Proof.
  intros Hrc. unfold k_rc. rewrite runk_quest, runk_cat.
  destruct rc as [r|]; cbn [rc_part cap_opt].
  - destruct (Hrc r eq_refl) as [Hne Hd].
    cbn [Go.bytes String.list_ascii_of_string app].
    rewrite runk_lit. cbn [Ascii.eqb Bool.eqb]. cbn beta iota.
    rewrite runk_cat, runk_lit. cbn [Ascii.eqb Bool.eqb]. cbn beta iota.
    rewrite runk_group by apply k_end_rejects_digits.
    rewrite <- (app_nil_r r) at 1. rewrite span_digits_app by done.
    destruct r as [|c r]; [done|].
    rewrite k_end_nil, k_end_rejects, app_nil_r.
    do 2 f_equal. cbn [length]. lia.
  - rewrite runk_lit, k_end_nil. cbn [app length]. do 2 f_equal. lia.
Qed.

Lemma k_rc_sound x p l cs :
  x ∈ k_rc (MState p l cs) → ∃ rc, opt_int rc ∧ l = rc_part rc.
Proof.
  unfold k_rc. rewrite runk_quest, runk_cat, runk_lit.
  intros [Hx|Hx]%elem_of_app.
  - destruct l as [|c1 l]; [by apply elem_of_nil in Hx|].
    destruct (Ascii.eqb_spec c1 "r"); [subst|by apply elem_of_nil in Hx].
    rewrite runk_cat, runk_lit in Hx.
    destruct l as [|c2 l]; [by apply elem_of_nil in Hx|].
    destruct (Ascii.eqb_spec c2 "c"); [subst|by apply elem_of_nil in Hx].
    rewrite runk_group in Hx by apply k_end_rejects_digits.
    destruct (span_digits l) as [[|d ds] r] eqn:Hs; [by apply elem_of_nil in Hx|].
    apply span_digits_spec in Hs as (-> & Hd & _).
    destruct r as [|c r]; [|by rewrite k_end_rejects in Hx; apply elem_of_nil in Hx].
    exists (Some (d :: ds)). split.
    + intros ? [= <-]. by split.
    + by rewrite app_nil_r.
  - destruct l as [|c l]; [|by rewrite k_end_rejects in Hx; apply elem_of_nil in Hx].
    exists None. split; [by intros ? [=]|done].
Qed.

Lemma k_rc_rejects_dot p tl cs : k_rc (MState p ("."%char :: tl) cs) = [].
Proof.
  unfold k_rc. by rewrite runk_quest, runk_cat, runk_lit, k_end_rejects.
Qed.

Lemma runk_dot_rc_part k p rc cs :
  runk (Lit ".") k (MState p (rc_part rc) cs) = [].
Proof. rewrite runk_lit. by destruct rc. Qed.

Lemma k_patch_complete p cs pt rc :
  opt_int pt → opt_int rc →
  k_patch (MState p (patch_part pt ++ rc_part rc) cs)
  = [MState (p + length (patch_part pt ++ rc_part rc)) []
       (cap_opt 4 rc (cap_opt 3 pt cs))].
Proof.
  intros Hpt Hrc. unfold k_patch. rewrite runk_quest, runk_cat.
  destruct pt as [t|]; cbn [patch_part cap_opt].
  - destruct (Hpt t eq_refl) as [Hne Hd].
    cbn [Go.bytes String.list_ascii_of_string app].
    rewrite runk_lit. cbn [Ascii.eqb Bool.eqb]. cbn beta iota.
    rewrite runk_group by apply k_rc_rejects.
    rewrite span_digits_app by auto using no_digit_rc_part.
    destruct t as [|c t]; [done|].
    rewrite k_rc_complete, k_rc_rejects_dot, app_nil_r by done.
    do 2 f_equal. cbn [length]. rewrite !length_app. cbn [length]. lia.
  - cbn [app]. rewrite runk_dot_rc_part. cbn [app].
    by rewrite k_rc_complete.
Qed.

Lemma k_patch_sound x p l cs :
  x ∈ k_patch (MState p l cs) →
  ∃ pt rc, opt_int pt ∧ opt_int rc ∧ l = patch_part pt ++ rc_part rc.
Proof.
  unfold k_patch. rewrite runk_quest, runk_cat, runk_lit.
  intros [Hx|Hx]%elem_of_app.
  - destruct l as [|c1 l]; [by apply elem_of_nil in Hx|].
    destruct (Ascii.eqb_spec c1 "."); [subst|by apply elem_of_nil in Hx].
    rewrite runk_group in Hx by apply k_rc_rejects.
    destruct (span_digits l) as [[|d ds] r] eqn:Hs; [by apply elem_of_nil in Hx|].
    apply span_digits_spec in Hs as (-> & Hd & _).
    apply k_rc_sound in Hx as (rc & Hrc & ->).
    exists (Some (d :: ds)), rc. split; [|split; [done|reflexivity]].
    intros ? [= <-]. by split.
  - apply k_rc_sound in Hx as (rc & Hrc & ->).
    exists None, rc. split; [by intros ? [=]|]. by split.
Qed.

Lemma is_int_inv ds : is_int ds → ∃ c tl, ds = c :: tl ∧ Forall digit ds.
Proof. intros [Hne Hd]. destruct ds; [done|]. eauto. Qed.

Lemma run_versionRegex_complete g :
  parts_wf g →
  run versionRegex (MState 0 (assemble g) ∅)
  = [MState (length (assemble g)) [] (captures g)].
Proof.
  intros (Hmj & Hmn & Hpt & Hrc).
  rewrite run_versionRegex, runk_begin. cbn [Nat.eqb].
  unfold assemble, captures. destruct g as [mj mn pt rc]; cbn [p_major p_minor p_patch p_rc] in *.
  cbn [Go.bytes String.list_ascii_of_string app].
  rewrite runk_lit. cbn [Ascii.eqb Bool.eqb]. cbn beta iota.
  rewrite runk_lit. cbn [Ascii.eqb Bool.eqb]. cbn beta iota.
  rewrite runk_group by apply k_minor_rejects.
  destruct Hmj as [Hmj1 Hmj2]. destruct Hmn as [Hmn1 Hmn2].
  rewrite span_digits_app by done.
  destruct mj as [|c mj]; [done|].
  unfold k_minor. rewrite runk_lit. cbn [Ascii.eqb Bool.eqb]. cbn beta iota.
  rewrite runk_group by apply k_patch_rejects.
  change (match pt with Some p => "."%char :: p | None => [] end) with (patch_part pt).
  change (match rc with Some r => "r"%char :: "c"%char :: r | None => [] end) with (rc_part rc).
  rewrite span_digits_app by auto using no_digit_patch_rc.
  destruct mn as [|c' mn]; [done|].
  rewrite k_patch_complete by done.
  f_equal. f_equal.
  { cbn [length]. rewrite !length_app. cbn [length]. rewrite !length_app. cbn [length]. lia. }
Qed.

Lemma run_versionRegex_sound x p l cs :
  x ∈ run versionRegex (MState p l cs) →
  p = 0%nat ∧ ∃ g, parts_wf g ∧ l = assemble g.
Proof.
  rewrite run_versionRegex, runk_begin.
  destruct (Nat.eqb_spec p 0); [subst|by intros ?%elem_of_nil].
  intros Hx. split; [done|].
  rewrite runk_lit in Hx.
  destruct l as [|c1 l]; [by apply elem_of_nil in Hx|].
  destruct (Ascii.eqb_spec c1 "g"); [subst|by apply elem_of_nil in Hx].
  rewrite runk_lit in Hx.
  destruct l as [|c2 l]; [by apply elem_of_nil in Hx|].
  destruct (Ascii.eqb_spec c2 "o"); [subst|by apply elem_of_nil in Hx].
  rewrite runk_group in Hx by apply k_minor_rejects.
  destruct (span_digits l) as [[|d ds] r] eqn:Hs; [by apply elem_of_nil in Hx|].
  apply span_digits_spec in Hs as (-> & Hd & _).
  unfold k_minor in Hx. rewrite runk_lit in Hx.
  destruct r as [|c3 l]; [by apply elem_of_nil in Hx|].
  destruct (Ascii.eqb_spec c3 "."); [subst|by apply elem_of_nil in Hx].
  rewrite runk_group in Hx by apply k_patch_rejects.
  destruct (span_digits l) as [[|d' ds'] r] eqn:Hs; [by apply elem_of_nil in Hx|].
  apply span_digits_spec in Hs as (-> & Hd' & _).
  apply k_patch_sound in Hx as (pt & rc & Hpt & Hrc & ->).
  exists (mkParts (d :: ds) (d' :: ds') pt rc). split.
  - split; [by split|]. split; [by split|]. split; [exact Hpt|exact Hrc].
  - unfold assemble. cbn [p_major p_minor p_patch p_rc].
    cbn [Go.bytes String.list_ascii_of_string app]. done.
Qed.

(* ================================================================== *)
(** ** Integers of the grammar *)
(* ================================================================== *)

Lemma bytes_str l : Go.bytes (Go.str l) = l.
Proof. apply String.list_ascii_of_string_of_list_ascii. Qed.

Lemma str_bytes s : Go.str (Go.bytes s) = s.
Proof. apply String.string_of_list_ascii_of_string. Qed.

Lemma bytes_app s1 s2 : Go.bytes (s1 +:+ s2) = Go.bytes s1 ++ Go.bytes s2.
Proof.
  induction s1 as [|c s1 IH]; [done|]. unfold Go.bytes in *.
  change (String c s1 +:+ s2) with (String c (s1 +:+ s2)).
  cbn [String.list_ascii_of_string]. by rewrite IH.
Qed.

Lemma str_nonempty l : l ≠ [] → Go.str l ≠ "".
Proof. by destruct l. Qed.

Lemma decimal_value_snoc l c :
  Go.decimal_value (l ++ [c]) = Go.decimal_value l * 10 + Go.digit_val c.
Proof. unfold Go.decimal_value. by rewrite fold_left_app. Qed.

Lemma digit_val_range c : digit c → 0 ≤ Go.digit_val c ≤ 9.
Proof.
  unfold digit, Go.is_digit, Go.digit_val.
  intros [H1 H2]%andb_prop. apply Nat.leb_le in H1, H2. lia.
Qed.

Lemma decimal_value_nonneg l : Forall digit l → 0 ≤ Go.decimal_value l.
Proof.
  induction l as [|c l IH] using rev_ind; [done|].
  intros [Hl Hc]%Forall_app. rewrite decimal_value_snoc.
  apply Forall_singleton, digit_val_range in Hc. specialize (IH Hl). lia.
Qed.

Lemma digit_char_spec d :
  0 ≤ d ≤ 9 → digit (Go.digit_char d) ∧ Go.digit_val (Go.digit_char d) = d.
Proof.
  intros Hd.
  assert (d = 0 ∨ d = 1 ∨ d = 2 ∨ d = 3 ∨ d = 4 ∨ d = 5 ∨ d = 6 ∨ d = 7
          ∨ d = 8 ∨ d = 9) as H by lia.
  repeat (destruct H as [->|H]; [by split|]). subst. by split.
Qed.

Lemma digits_of_digit fuel : ∀ n, 0 ≤ n → Forall digit (Go.digits_of fuel n).
Proof.
  induction fuel as [|f IH]; intros n Hn; cbn [Go.digits_of]; [constructor|].
  apply Forall_app. split.
  - destruct (n <? 10); [constructor|]. apply IH. by apply Z.div_pos.
  - constructor; [|constructor]. apply digit_char_spec.
    pose proof (Z.mod_pos_bound n 10). lia.
Qed.

Lemma digits_of_nonempty fuel n : Go.digits_of (S fuel) n ≠ [].
Proof. cbn [Go.digits_of]. by destruct (if n <? 10 then _ else _). Qed.

Lemma decimal_value_digits_of fuel : ∀ n,
  0 ≤ n < 10 ^ Z.of_nat fuel → Go.decimal_value (Go.digits_of fuel n) = n.
Proof.
  induction fuel as [|f IH]; intros n Hn.
  - simpl in Hn. cbn. lia.
  - cbn [Go.digits_of]. rewrite decimal_value_snoc.
    pose proof (Z.mod_pos_bound n 10 ltac:(lia)) as Hm.
    destruct (digit_char_spec (n mod 10) ltac:(lia)) as [_ ->].
    destruct (Z.ltb_spec n 10).
    + cbn. rewrite Z.mod_small; lia.
    + rewrite IH.
      * pose proof (Z.div_mod n 10 ltac:(lia)). lia.
      * rewrite Nat2Z.inj_succ, Z.pow_succ_r in Hn by lia.
        split; [apply Z.div_pos; lia|]. apply Z.div_lt_upper_bound; lia.
Qed.

Lemma Atoi_int ds : is_int ds → fst (Go.Atoi (Go.str ds)) = int_value ds.
Proof.
  intros [Hne Hd]. unfold Go.Atoi, int_value. rewrite bytes_str.
  destruct ds as [|c tl]; [done|].
  assert (Hc : Go.is_digit c = true) by (by inversion Hd).
  rewrite (digit_not c "-"), (digit_not c "+") by done.
  assert (forallb Go.is_digit (c :: tl) = true) as ->.
  { apply forallb_forall. intros x Hx. rewrite Forall_forall in Hd.
    apply Hd. by apply list_elem_of_In. }
  cbn [negb andb]. unfold Go.MaxInt64.
  destruct (Z.leb_spec (2 ^ 63) (Go.decimal_value (c :: tl))); cbn [fst]; lia.
Qed.

Lemma int_value_range ds : Forall digit ds → 0 ≤ int_value ds ≤ Go.MaxInt64.
Proof.
  intros H%decimal_value_nonneg. unfold int_value, Go.MaxInt64 in *. lia.
Qed.

Lemma captures_lookup g :
  captures g !! 1%nat = Some (p_major g)
  ∧ captures g !! 2%nat = Some (p_minor g)
  ∧ captures g !! 3%nat = p_patch g
  ∧ captures g !! 4%nat = p_rc g.
Proof.
  unfold captures. destruct (p_patch g), (p_rc g); repeat split;
    by simplify_map_eq.
Qed.

Lemma FindStringSubmatch_complete tag g :
  matches_grammar tag g →
  FindStringSubmatch versionRegex tag
  = Some [tag; Go.str (p_major g); Go.str (p_minor g);
          Go.str (default [] (p_patch g)); Go.str (default [] (p_rc g))].
Proof.
  intros [Hwf Htag]. unfold FindStringSubmatch.
  cbn [seq]. rewrite bind_cons. rewrite drop_0, Htag.
  rewrite run_versionRegex_complete by done.
  cbn [fmap list_fmap app head pos caps].
  change (NumSubexp versionRegex) with 4%nat. cbn [seq list_fmap fmap].
  destruct (captures_lookup g) as (-> & -> & -> & ->).
  rewrite Nat.sub_0_r, firstn_all, <- Htag, str_bytes. done.
Qed.

Lemma FindStringSubmatch_sound tag ms :
  FindStringSubmatch versionRegex tag = Some ms → ∃ g, matches_grammar tag g.
Proof.
  unfold FindStringSubmatch. intros Hh.
  apply head_Some_elem_of in Hh.
  apply list_elem_of_bind in Hh as (off & Hms & _).
  apply list_elem_of_fmap in Hms as (x & _ & Hx).
  apply run_versionRegex_sound in Hx as (-> & g & Hwf & Hg).
  rewrite drop_0 in Hg. by exists g.
Qed.

(* ================================================================== *)
(** ** ParseVersion against the grammar *)
(* ================================================================== *)

Lemma group_present {A} ds (x y : A) :
  is_int ds → (if decide (Go.str ds ≠ "") then x else y) = x.
Proof. intros [Hne _]. destruct (decide _) as [|Hn]; [done|]. by apply str_nonempty in Hne. Qed.

Lemma group_absent {A} (x y : A) :
  (if decide (Go.str [] ≠ "") then x else y) = y.
Proof. by destruct (decide _). Qed.

Lemma ParseVersion_complete tag g :
  matches_grammar tag g → ParseVersion tag = Ok (version_of tag g).
Proof.
  intros Hg. pose proof Hg as [(Hmj & Hmn & Hpt & Hrc) _].
  unfold ParseVersion. rewrite (FindStringSubmatch_complete _ _ Hg).
  unfold sub, version_of. cbn [nth].
  destruct g as [mj mn pt rc]; cbn [p_major p_minor p_patch p_rc] in *.
  rewrite (Atoi_int mj), (Atoi_int mn) by done.
  destruct pt as [p|], rc as [r|]; cbn [default id];
    rewrite ?group_absent;
    rewrite ?(group_present p) by apply (Hpt _ eq_refl);
    rewrite ?(group_present r) by apply (Hrc _ eq_refl);
    rewrite ?Atoi_int by first [apply (Hpt _ eq_refl) | apply (Hrc _ eq_refl)];
    done.
Qed.

Lemma ParseVersion_inv tag v :
  ParseVersion tag = Ok v → ∃ g, matches_grammar tag g ∧ v = version_of tag g.
Proof.
  intros H. assert (∃ g, matches_grammar tag g) as [g Hg].
  { unfold ParseVersion in H.
    destruct (FindStringSubmatch versionRegex tag) eqn:E; [|done].
    eauto using FindStringSubmatch_sound. }
  exists g. split; [done|].
  rewrite (ParseVersion_complete _ _ Hg) in H. by injection H.
Qed.

Lemma ParseVersion_Err tag e : ParseVersion tag = Err e → e = InvalidFormat tag.
Proof.
  unfold ParseVersion. destruct (FindStringSubmatch versionRegex tag); [|by intros [=]].
  by destruct (if decide _ then _ else _).
Qed.

(* ================================================================== *)
(** ** The sorting loops *)
(* ================================================================== *)

Section ExchangeSortFacts.
Context {A : Type} (gt : A → A → option bool) (gtb : A → A → bool).
Context (P : A → Prop).
Hypothesis gt_defined : ∀ x y, P x → P y → gt x y = Some (gtb x y).
Hypothesis gtb_asym : ∀ x y, P x → P y → gtb x y = true → gtb y x = false.
Hypothesis gtb_trans : ∀ x y z, P x → P y → P z →
  gtb x y = false → gtb y z = false → gtb x z = false.

Local Abbreviation le := (not_gt gtb).

Lemma insert_middle (l1 l2 : list A) x y :
  <[length l1 := y]> (l1 ++ x :: l2) = l1 ++ y :: l2.
Proof. induction l1 as [|? ? IH]; [done|]. cbn. by f_equal. Qed.

Lemma select_length x l : length (select gtb x l).2 = length l.
Proof.
  revert x. induction l as [|y l IH]; intros x; cbn; [done|].
  destruct (gtb x y).
  - specialize (IH y). destruct (select gtb y l). cbn in *. lia.
  - specialize (IH x). destruct (select gtb x l). cbn in *. lia.
Qed.

Lemma select_perm x l : (select gtb x l).1 :: (select gtb x l).2 ≡ₚ x :: l.
Proof.
  revert x. induction l as [|y l IH]; intros x; cbn; [done|].
  destruct (gtb x y).
  - specialize (IH y). destruct (select gtb y l) as [m r]. cbn in *.
    transitivity (x :: m :: r); [apply perm_swap|by apply perm_skip].
  - specialize (IH x). destruct (select gtb x l) as [m r]. cbn in *.
    transitivity (y :: m :: r); [apply perm_swap|].
    transitivity (y :: x :: l); [by apply perm_skip|apply perm_swap].
Qed.

Lemma le_refl x : P x → le x x.
Proof.
  intros Hx. unfold not_gt. destruct (gtb x x) eqn:E; [|done].
  by rewrite (gtb_asym x x) in E.
Qed.

Lemma select_min x l :
  P x → Forall P l →
  le (select gtb x l).1 x ∧ Forall (le (select gtb x l).1) (select gtb x l).2
  ∧ P (select gtb x l).1 ∧ Forall P (select gtb x l).2.
Proof.
  revert x. induction l as [|y l IH]; intros x Hx Hl; cbn.
  { auto using le_refl. }
  apply Forall_cons in Hl as [Hy Hl].
  destruct (gtb x y) eqn:E.
  - destruct (IH y Hy Hl) as (H1 & H2 & H3 & H4).
    destruct (select gtb y l) as [m r]. cbn in *.
    assert (le m x) by (apply (gtb_trans m y x); auto).
    auto.
  - destruct (IH x Hx Hl) as (H1 & H2 & H3 & H4).
    destruct (select gtb x l) as [m r]. cbn in *.
    assert (le m y) by (apply (gtb_trans m x y); auto).
    auto.
Qed.

Lemma selection_sort_perm n : ∀ l, selection_sort gtb n l ≡ₚ l.
Proof.
  induction n as [|n IH]; intros l; [by destruct l|].
  destruct l as [|x tl]; [done|]. cbn.
  pose proof (select_perm x tl) as Hp.
  destruct (select gtb x tl) as [m r]. cbn in Hp.
  by rewrite IH.
Qed.

Lemma selection_sort_P n l : Forall P l → Forall P (selection_sort gtb n l).
Proof. intros H. by rewrite selection_sort_perm. Qed.

Lemma selection_sort_sorted n : ∀ l,
  Forall P l → (length l - 1 ≤ n)%nat →
  StronglySorted le (selection_sort gtb n l).
Proof.
  induction n as [|n IH]; intros l Hl Hn.
  - destruct l as [|x [|y l]]; cbn in *; [constructor| |lia].
    repeat constructor.
  - destruct l as [|x tl]; [constructor|]. cbn [selection_sort].
    apply Forall_cons in Hl as [Hx Hl].
    destruct (select_min x tl Hx Hl) as (_ & H2 & _ & H4).
    pose proof (select_length x tl) as Hlen.
    destruct (select gtb x tl) as [m r]. cbn in *.
    constructor.
    + apply IH; [done|lia].
    + by rewrite selection_sort_perm.
Qed.

(** The inner loop, started at [j = i + 1 + length seen]. *)
Lemma inner_loop_select (pre : list A) : ∀ tl x seen,
  P x → Forall P tl →
  foldl (swap_if_gt gt (length pre)) (Some (pre ++ x :: seen ++ tl))
    (seq (S (length pre + length seen)) (length tl))
  = Some (pre ++ (select gtb x tl).1 :: seen ++ (select gtb x tl).2).
Proof.
  induction tl as [|y tl IH]; intros x seen Hx Htl; [done|].
  apply Forall_cons in Htl as [Hy Htl].
  cbn [length seq foldl select]. unfold swap_if_gt at 2. cbn [mbind option_bind].
  assert ((pre ++ x :: seen ++ y :: tl) !! length pre = Some x) as ->
    by (by apply list_lookup_middle).
  assert ((pre ++ x :: seen ++ y :: tl) !! S (length pre + length seen)
          = Some y) as ->.
  { change (x :: seen ++ y :: tl) with ((x :: seen) ++ y :: tl).
    rewrite app_assoc. apply list_lookup_middle.
    rewrite length_app. cbn. lia. }
  cbn [mbind option_bind]. rewrite gt_defined by done. cbn [mbind option_bind].
  destruct (gtb x y) eqn:E.
  - rewrite insert_middle.
    assert (<[S (length pre + length seen):=x]> (pre ++ y :: seen ++ y :: tl)
            = pre ++ y :: (seen ++ [x]) ++ tl) as ->.
    { change (y :: seen ++ y :: tl) with ((y :: seen) ++ y :: tl).
      rewrite app_assoc.
      replace (S (length pre + length seen)) with (length (pre ++ y :: seen))
        by (rewrite length_app; cbn; lia).
      rewrite insert_middle. by rewrite <- !app_assoc. }
    replace (S (S (length pre + length seen)))
      with (S (length pre + length (seen ++ [x])))
      by (rewrite !length_app; cbn; lia).
    rewrite IH by done.
    destruct (select gtb y tl) as [m r]. cbn. by rewrite <- !app_assoc.
  - replace (pre ++ x :: seen ++ y :: tl) with (pre ++ x :: (seen ++ [y]) ++ tl)
      by (by rewrite <- !app_assoc).
    replace (S (S (length pre + length seen)))
      with (S (length pre + length (seen ++ [y])))
      by (rewrite !length_app; cbn; lia).
    rewrite IH by done.
    destruct (select gtb x tl) as [m r]. cbn. by rewrite <- !app_assoc.
Qed.

Lemma inner_loop_spec (pre : list A) x tl :
  P x → Forall P tl →
  inner_loop gt (Some (pre ++ x :: tl)) (length pre)
  = Some (pre ++ (select gtb x tl).1 :: (select gtb x tl).2).
Proof.
  intros Hx Htl. unfold inner_loop. cbn [mbind option_bind].
  replace (length (pre ++ x :: tl) - S (length pre))%nat with (length tl)
    by (rewrite length_app; cbn; lia).
  pose proof (inner_loop_select pre tl x [] Hx Htl) as H.
  cbn [app length] in H. by rewrite Nat.add_0_r in H.
Qed.

Lemma outer_loop_spec n : ∀ (pre l : list A),
  Forall P l → (n ≤ length l)%nat →
  foldl (inner_loop gt) (Some (pre ++ l)) (seq (length pre) n)
  = Some (pre ++ selection_sort gtb n l).
Proof.
  induction n as [|n IH]; intros pre l Hl Hn; [by destruct l|].
  destruct l as [|x tl]; [cbn in Hn; lia|].
  apply Forall_cons in Hl as [Hx Hl].
  cbn [seq foldl selection_sort]. rewrite inner_loop_spec by done.
  destruct (select_min x tl Hx Hl) as (_ & _ & _ & H4).
  pose proof (select_length x tl) as Hlen.
  destruct (select gtb x tl) as [m r]. cbn [fst snd] in *.
  replace (pre ++ m :: r) with ((pre ++ [m]) ++ r) by (by rewrite <- app_assoc).
  replace (S (length pre)) with (length (pre ++ [m]))
    by (rewrite length_app; cbn; lia).
  rewrite IH; [|done|cbn in Hn; lia]. by rewrite <- app_assoc.
Qed.

Lemma exchange_sort_spec (l : list A) :
  Forall P l →
  exchange_sort gt l = Some (selection_sort gtb (length l - 1) l).
Proof.
  intros Hl. unfold exchange_sort.
  apply (outer_loop_spec (length l - 1) [] l Hl). lia.
Qed.

Lemma exchange_sort_sorted (l : list A) :
  Forall P l →
  ∃ l', exchange_sort gt l = Some l' ∧ l' ≡ₚ l ∧ StronglySorted le l'.
Proof.
  intros Hl. eexists. split; [by apply exchange_sort_spec|].
  split; [apply selection_sort_perm|by apply selection_sort_sorted].
Qed.

End ExchangeSortFacts.

(* ================================================================== *)
(** ** Group keys and the version sort *)
(* ================================================================== *)

Lemma Parsed_in_range v : Parsed v → in_range v.
Proof.
  intros [tag (g & [(Hmj & Hmn & _) _] & ->)%ParseVersion_inv].
  split; cbn; apply int_value_range; [apply Hmj|apply Hmn].
Qed.

Lemma Itoa_nonneg n : 0 ≤ n → Go.Itoa n = Go.str (Go.digits_of 20 n).
Proof. intros Hn. unfold Go.Itoa. by destruct (Z.ltb_spec n 0); [lia|]. Qed.

Lemma digits_of_int n : 0 ≤ n → is_int (Go.digits_of 20 n).
Proof. split; [apply digits_of_nonempty|by apply digits_of_digit]. Qed.

Lemma int_value_digits_of n :
  0 ≤ n ≤ Go.MaxInt64 → int_value (Go.digits_of 20 n) = n.
Proof.
  intros Hn. unfold int_value. unfold Go.MaxInt64 in *.
  rewrite decimal_value_digits_of; [lia|].
  change (10 ^ Z.of_nat 20) with 100000000000000000000. lia.
Qed.

Lemma key_tag_grammar v :
  in_range v →
  matches_grammar (key_tag (GetMajorMinor v)) (key_parts (Major v) (Minor v)).
Proof.
  intros [[H1 _] [H2 _]]. split.
  - split; [by apply digits_of_int|]. split; [by apply digits_of_int|].
    split; [|by intros ? [=]]. intros ? [= <-]. split; [done|].
    by repeat constructor.
  - unfold key_tag, GetMajorMinor, assemble. cbn [p_major p_minor p_patch p_rc].
    rewrite !bytes_app, !Itoa_nonneg, !bytes_str by done.
    by rewrite <- !app_assoc, app_nil_r.
Qed.

Lemma key_tag_parse v :
  in_range v →
  ∃ kv, ParseVersion (key_tag (GetMajorMinor v)) = Ok kv
        ∧ Major kv = Major v ∧ Minor kv = Minor v
        ∧ Patch kv = 0 ∧ IsRC kv = false.
Proof.
  intros Hv. pose proof (key_tag_grammar v Hv) as Hg.
  eexists. split; [by apply ParseVersion_complete|].
  destruct Hv as [H1 H2]. unfold version_of, key_parts.
  cbn [Major Minor Patch IsRC p_major p_minor p_patch p_rc].
  by rewrite !int_value_digits_of.
Qed.

Lemma GetMajorMinor_inj v w :
  in_range v → in_range w → GetMajorMinor v = GetMajorMinor w →
  Major v = Major w ∧ Minor v = Minor w.
Proof.
  intros Hv Hw Heq.
  destruct (key_tag_parse v Hv) as (kv & Hkv & <- & <- & _).
  destruct (key_tag_parse w Hw) as (kw & Hkw & <- & <- & _).
  rewrite Heq in Hkv. rewrite Hkv in Hkw. by injection Hkw as ->.
Qed.

Lemma version_gtb_false a b : version_gtb a b = false ↔ version_le a b.
Proof. unfold version_gtb, version_le. rewrite Z.gtb_ltb, Z.ltb_ge. done. Qed.

Lemma version_gtb_asym a b : version_gtb a b = true → version_gtb b a = false.
Proof.
  rewrite version_gtb_false. unfold version_gtb, version_le.
  rewrite Z.gtb_ltb, Z.ltb_lt, (Compare_antisym b a). lia.
Qed.

Lemma version_gtb_trans a b c :
  version_gtb a b = false → version_gtb b c = false → version_gtb a c = false.
Proof. rewrite !version_gtb_false. apply Compare_le_trans. Qed.

Lemma sort_versions_spec (l : list Version) :
  exchange_sort version_gt l
  = Some (selection_sort version_gtb (length l - 1) l).
Proof.
  apply (exchange_sort_spec version_gt version_gtb (λ _, True)).
  - done.
  - intros x y _ _. apply version_gtb_asym.
  - intros x y z _ _ _. apply version_gtb_trans.
  - by apply Forall_true.
Qed.

Lemma StronglySorted_mono {A} (R1 R2 : relation A) l :
  (∀ x y, R1 x y → R2 x y) → StronglySorted R1 l → StronglySorted R2 l.
Proof.
  intros HR. induction 1 as [|x l _ IH Hx]; constructor; [done|].
  eapply Forall_impl; eauto.
Qed.

Lemma sort_versions_sorted (l : list Version) :
  StronglySorted version_le (selection_sort version_gtb (length l - 1) l).
Proof.
  eapply (StronglySorted_mono (not_gt version_gtb)).
  - intros ?? H. by apply version_gtb_false.
  - apply (selection_sort_sorted version_gtb (λ _, True)).
    + intros x y _ _. apply version_gtb_asym.
    + intros x y z _ _ _. apply version_gtb_trans.
    + by apply Forall_true.
    + done.
Qed.

(* ================================================================== *)
(** ** The grouping map *)
(* ================================================================== *)

Lemma foldl_add_version_lookup vs : ∀ (m : gmap string (list Version)) k,
  foldl add_version m vs !! k
  = match with_key k vs with
    | [] => m !! k
    | l => Some (default [] (m !! k) ++ l)
    end.
Proof.
  induction vs as [|v vs IH]; intros m k; [done|].
  cbn [foldl]. rewrite IH. unfold with_key, add_version.
  rewrite filter_cons. destruct (decide (GetMajorMinor v = k)) as [->|Hne].
  - rewrite lookup_insert_eq. cbn [default].
    destruct (filter _ vs) as [|w l]; [done|].
    unfold id. by rewrite <- app_assoc.
  - by rewrite lookup_insert_ne.
Qed.

Lemma build_groups_lookup vs k :
  build_groups vs !! k
  = match with_key k vs with [] => None | l => Some l end.
Proof.
  unfold build_groups. rewrite foldl_add_version_lookup, lookup_empty.
  by destruct (with_key k vs).
Qed.

Lemma build_groups_entry vs k l :
  (k, l) ∈ map_to_list (build_groups vs) ↔ l ≠ [] ∧ l = with_key k vs.
Proof.
  rewrite elem_of_map_to_list, build_groups_lookup.
  destruct (with_key k vs) eqn:E; split.
  - done.
  - by intros [? ->].
  - by intros [= <-].
  - by intros [_ ->].
Qed.

Lemma with_key_perm k vs vs' : vs ≡ₚ vs' → with_key k vs ≡ₚ with_key k vs'.
Proof. intros H. unfold with_key. by rewrite H. Qed.

Lemma sort_versions_perm l : sort_versions l ≡ₚ l.
Proof. apply selection_sort_perm. Qed.

Lemma sort_versions_unique vs l l' :
  no_ties vs → l ⊆ vs → l ≡ₚ l' → sort_versions l = sort_versions l'.
Proof.
  intros Hnt Hsub Hp.
  apply (StronglySorted_unique_strong version_le);
    [|apply sort_versions_sorted..|by rewrite !sort_versions_perm].
  intros x1 x2 H1 H2 Hle1 Hle2.
  rewrite sort_versions_perm in H1. rewrite sort_versions_perm, <- Hp in H2.
  apply Hnt; auto. unfold version_le in *. rewrite (Compare_antisym x2 x1) in Hle2. lia.
Qed.

Lemma with_key_subseteq k vs : with_key k vs ⊆ vs.
Proof. intros x [_ ?]%list_elem_of_filter. done. Qed.

Lemma sorted_groups_perm vs vs' :
  no_ties vs → vs ≡ₚ vs' → sorted_groups vs = sorted_groups vs'.
Proof.
  intros Hnt Hp. apply map_eq. intros k. unfold sorted_groups.
  rewrite !lookup_fmap, !build_groups_lookup.
  pose proof (with_key_perm k _ _ Hp) as Hk.
  pose proof (with_key_subseteq k vs) as Hsub.
  destruct (with_key k vs) as [|x l] eqn:E.
  - apply Permutation_nil in Hk. by rewrite Hk.
  - destruct (with_key k vs') as [|x' l'] eqn:E'.
    { symmetry in Hk. by apply Permutation_nil in Hk. }
    cbn [fmap option_fmap option_map]. f_equal. by apply (sort_versions_unique vs).
Qed.

Lemma mapM_total {A B} (f : A → option B) (g : A → B) (l : list A) :
  (∀ x, f x = Some (g x)) → mapM f l = Some (g <$> l).
Proof.
  intros H. induction l as [|x l IH]; [done|].
  cbn. rewrite H. cbn. by rewrite IH.
Qed.

Lemma mapM_sort_group entries :
  mapM sort_group entries = Some (to_group <$> entries).
Proof.
  apply mapM_total. intros [k l]. unfold sort_group, to_group.
  cbn [fst snd]. by rewrite sort_versions_spec.
Qed.

Lemma to_group_entries vs entries :
  entries ≡ₚ map_to_list (build_groups vs) →
  to_group <$> entries ≡ₚ canonical_groups vs.
Proof.
  intros ->. unfold canonical_groups, sorted_groups.
  rewrite map_to_list_fmap, <- list_fmap_compose.
  erewrite list_fmap_ext; [done|]. by intros _ [k l] _.
Qed.

(* ================================================================== *)
(** ** The group sort *)
(* ================================================================== *)

Lemma group_gt_spec g1 g2 v1 v2 :
  in_range v1 → in_range v2 →
  MajorMinor g1 = GetMajorMinor v1 → MajorMinor g2 = GetMajorMinor v2 →
  group_gt g1 g2 = Some (mm_gtb v1 v2).
Proof.
  intros H1 H2 E1 E2. unfold group_gt. rewrite E1, E2.
  fold (key_tag (GetMajorMinor v1)). fold (key_tag (GetMajorMinor v2)).
  destruct (key_tag_parse v1 H1) as (k1 & -> & M1 & m1 & P1 & R1).
  destruct (key_tag_parse v2 H2) as (k2 & -> & M2 & m2 & P2 & R2).
  f_equal. unfold mm_gtb, Compare.
  rewrite <- M1, <- M2, <- m1, <- m2, P1, P2, R1, R2. cbn [andb negb].
  rewrite Z.eqb_refl. cbn [negb].
  destruct (Z.eqb_spec (Major k1) (Major k2)) as [->|?]; cbn [negb].
  - rewrite Z.ltb_irrefl. cbn [orb andb].
    destruct (Z.eqb_spec (Minor k1) (Minor k2)) as [->|?]; cbn [negb].
    + by rewrite Z.ltb_irrefl.
    + destruct (Z.ltb_spec (Minor k1) (Minor k2)), (Z.ltb_spec (Minor k2) (Minor k1));
        try done; lia.
  - rewrite orb_false_r.
    destruct (Z.ltb_spec (Major k1) (Major k2)), (Z.ltb_spec (Major k2) (Major k1));
      try done; lia.
Qed.

Lemma group_gtb_spec g1 g2 v1 v2 :
  in_range v1 → in_range v2 →
  MajorMinor g1 = GetMajorMinor v1 → MajorMinor g2 = GetMajorMinor v2 →
  group_gtb g1 g2 = mm_gtb v1 v2.
Proof.
  intros. unfold group_gtb. by rewrite (group_gt_spec g1 g2 v1 v2).
Qed.

Lemma mm_gtb_true a b : mm_gtb a b = true ↔ mm_lt b a.
Proof.
  unfold mm_gtb, mm_lt.
  rewrite orb_true_iff, andb_true_iff, !Z.ltb_lt, Z.eqb_eq. intuition lia.
Qed.

Lemma mm_gtb_false a b : mm_gtb a b = false ↔ ¬ mm_lt b a.
Proof. rewrite <- mm_gtb_true. by destruct (mm_gtb a b). Qed.

Lemma group_gt_defined g1 g2 :
  keyed g1 → keyed g2 → group_gt g1 g2 = Some (group_gtb g1 g2).
Proof.
  intros (v1 & H1 & E1) (v2 & H2 & E2).
  by rewrite (group_gtb_spec g1 g2 v1 v2), (group_gt_spec g1 g2 v1 v2).
Qed.

Lemma group_gtb_asym g1 g2 :
  keyed g1 → keyed g2 → group_gtb g1 g2 = true → group_gtb g2 g1 = false.
Proof.
  intros (v1 & H1 & E1) (v2 & H2 & E2).
  rewrite (group_gtb_spec g1 g2 v1 v2), (group_gtb_spec g2 g1 v2 v1) by done.
  rewrite mm_gtb_true, mm_gtb_false. unfold mm_lt. lia.
Qed.

Lemma group_gtb_trans g1 g2 g3 :
  keyed g1 → keyed g2 → keyed g3 →
  group_gtb g1 g2 = false → group_gtb g2 g3 = false → group_gtb g1 g3 = false.
Proof.
  intros (v1 & H1 & E1) (v2 & H2 & E2) (v3 & H3 & E3).
  rewrite (group_gtb_spec g1 g2 v1 v2), (group_gtb_spec g2 g3 v2 v3),
    (group_gtb_spec g1 g3 v1 v3) by done.
  rewrite !mm_gtb_false. unfold mm_lt. lia.
Qed.

Lemma group_le_antisym g1 g2 :
  keyed g1 → keyed g2 →
  group_gtb g1 g2 = false → group_gtb g2 g1 = false →
  MajorMinor g1 = MajorMinor g2.
Proof.
  intros (v1 & H1 & E1) (v2 & H2 & E2).
  rewrite (group_gtb_spec g1 g2 v1 v2), (group_gtb_spec g2 g1 v2 v1) by done.
  rewrite !mm_gtb_false. unfold mm_lt. intros Ha Hb.
  rewrite E1, E2. unfold GetMajorMinor.
  assert (Major v1 = Major v2) as -> by lia.
  assert (Minor v1 = Minor v2) as -> by lia. done.
Qed.

Lemma canonical_groups_elem vs g :
  g ∈ canonical_groups vs ↔
  with_key (MajorMinor g) vs ≠ []
  ∧ Versions g = sort_versions (with_key (MajorMinor g) vs).
Proof.
  unfold canonical_groups. rewrite list_elem_of_fmap. split.
  - intros ([k l] & -> & Hkl). cbn [fst snd MajorMinor Versions].
    apply elem_of_map_to_list in Hkl. unfold sorted_groups in Hkl.
    rewrite lookup_fmap, build_groups_lookup in Hkl.
    destruct (with_key k vs); [done|]. by injection Hkl as <-.
  - intros [Hne Hv]. exists (MajorMinor g, Versions g). split; [by destruct g|].
    apply elem_of_map_to_list. unfold sorted_groups.
    rewrite lookup_fmap, build_groups_lookup, Hv.
    by destruct (with_key (MajorMinor g) vs).
Qed.

Lemma canonical_groups_keyed vs g :
  Forall in_range vs → g ∈ canonical_groups vs → keyed g.
Proof.
  intros Hvs [Hne _]%canonical_groups_elem.
  destruct (with_key (MajorMinor g) vs) as [|v l] eqn:E; [done|].
  assert (v ∈ with_key (MajorMinor g) vs) as [Hk Hv]%list_elem_of_filter
    by (rewrite E; left).
  exists v. split; [|done]. rewrite Forall_forall in Hvs. auto.
Qed.

Lemma canonical_groups_key_inj vs g1 g2 :
  g1 ∈ canonical_groups vs → g2 ∈ canonical_groups vs →
  MajorMinor g1 = MajorMinor g2 → g1 = g2.
Proof.
  intros [_ H1]%canonical_groups_elem [_ H2]%canonical_groups_elem Hk.
  destruct g1, g2; cbn in *. subst. done.
Qed.

Lemma canonical_groups_NoDup vs : NoDup (MajorMinor <$> canonical_groups vs).
Proof.
  unfold canonical_groups. rewrite <- list_fmap_compose.
  erewrite list_fmap_ext; [apply (NoDup_fst_map_to_list (sorted_groups vs))|].
  by intros _ [k l] _.
Qed.

(** The group sort of a run: defined, and determined by the sorted
    buckets. *)
Lemma sort_groups_sorted vs gs :
  Forall in_range vs → gs ≡ₚ canonical_groups vs →
  ∃ out, exchange_sort group_gt gs = Some out
         ∧ out ≡ₚ canonical_groups vs
         ∧ StronglySorted (not_gt group_gtb) out.
Proof.
  intros Hvs Hgs.
  destruct (exchange_sort_sorted group_gt group_gtb keyed
              group_gt_defined group_gtb_asym group_gtb_trans gs)
    as (out & Hout & Hp & Hs).
  { rewrite Hgs. apply Forall_forall. intros g. by apply canonical_groups_keyed. }
  exists out. repeat split; [done| |done]. by rewrite Hp.
Qed.

Lemma sorted_groups_unique vs out out' :
  Forall in_range vs →
  out ≡ₚ canonical_groups vs → out' ≡ₚ canonical_groups vs →
  StronglySorted (not_gt group_gtb) out → StronglySorted (not_gt group_gtb) out' →
  out = out'.
Proof.
  intros Hvs Hp Hp' Hs Hs'.
  apply (StronglySorted_unique_strong (not_gt group_gtb)); [|done..|by rewrite Hp, Hp'].
  intros x1 x2 H1 H2 Hle1 Hle2. rewrite Hp in H1. rewrite Hp' in H2.
  apply (canonical_groups_key_inj vs); [done..|].
  apply group_le_antisym; eauto using canonical_groups_keyed.
Qed.

(* ================================================================== *)
(** ** The output of GroupVersions *)
(* ================================================================== *)

Lemma StronglySorted_NoDup {A B} (R : relation A) (f : A → B) l :
  StronglySorted R l → NoDup (f <$> l) →
  StronglySorted (λ a b, R a b ∧ f a ≠ f b) l.
Proof.
  induction 1 as [|x l Hs IH Hx]; intros Hnd; [constructor|].
  cbn in Hnd. apply NoDup_cons in Hnd as [Hnx Hnd].
  constructor; [by apply IH|].
  rewrite Forall_forall in Hx |- *. intros y Hy. split; [by apply Hx|].
  intros Heq. apply Hnx. rewrite Heq. by apply list_elem_of_fmap_2.
Qed.

Lemma run_result vs out :
  Forall in_range vs → GroupVersions_runs vs out →
  ∃ gs, out = Some gs ∧ gs ≡ₚ canonical_groups vs
        ∧ StronglySorted (not_gt group_gtb) gs.
Proof.
  intros Hvs (entries & Hentries & ->). unfold GroupVersions_from.
  rewrite mapM_sort_group. cbn [mbind option_bind].
  apply sort_groups_sorted; [done|]. by apply to_group_entries.
Qed.

Lemma canonical_group_of vs g : g ∈ canonical_groups vs → group_of vs g.
Proof.
  intros [Hne Hv]%canonical_groups_elem. unfold group_of. rewrite Hv.
  split; [|split].
  - intros Hnil. apply Hne. apply Permutation_nil.
    by rewrite <- Hnil, sort_versions_perm.
  - apply sort_versions_perm.
  - apply sort_versions_sorted.
Qed.

Lemma output_properties vs gs :
  Forall in_range vs → gs ≡ₚ canonical_groups vs →
  StronglySorted (not_gt group_gtb) gs →
  groups_ascending gs ∧ Forall (group_of vs) gs
  ∧ ∀ v, v ∈ vs → ∃ g, g ∈ gs ∧ MajorMinor g = GetMajorMinor v.
Proof.
  intros Hvs Hp Hs.
  assert (Hgo : Forall (group_of vs) gs).
  { apply Forall_forall. intros g Hg. rewrite Hp in Hg.
    by apply canonical_group_of. }
  split; [|split; [done|]].
  - apply (StronglySorted_NoDup _ MajorMinor) in Hs;
      [|rewrite Hp; apply canonical_groups_NoDup].
    unfold groups_ascending.
    assert (Hin : ∀ g v, g ∈ gs → v ∈ Versions g →
                  in_range v ∧ MajorMinor g = GetMajorMinor v).
    { intros g v Hg Hv. rewrite Forall_forall in Hgo.
      destruct (Hgo g Hg) as (_ & Hperm & _). rewrite Hperm in Hv.
      apply list_elem_of_filter in Hv as [Hk Hv].
      rewrite Forall_forall in Hvs. auto. }
    clear Hp Hgo. induction Hs as [|g1 gs Hs IH Hx]; [constructor|].
    constructor.
    { apply IH. intros g v Hg. apply Hin. by right. }
    rewrite Forall_forall in Hx |- *. intros g2 Hg2 v1 v2 Hv1 Hv2.
    destruct (Hx g2 Hg2) as [Hle Hne].
    destruct (Hin g1 v1 ltac:(left) Hv1) as [R1 E1].
    destruct (Hin g2 v2 ltac:(by right) Hv2) as [R2 E2].
    unfold not_gt in Hle. rewrite (group_gtb_spec g1 g2 v1 v2) in Hle by done.
    apply mm_gtb_false in Hle. unfold mm_lt in *.
    assert (¬ (Major v1 = Major v2 ∧ Minor v1 = Minor v2)); [|lia].
    intros [HM Hm]. apply Hne. rewrite E1, E2. unfold GetMajorMinor.
    by rewrite HM, Hm.
  - intros v Hv.
    assert (Hk : v ∈ with_key (GetMajorMinor v) vs)
      by (by apply list_elem_of_filter).
    exists (mkGroup (GetMajorMinor v) (sort_versions (with_key (GetMajorMinor v) vs))).
    split; [|done]. rewrite Hp. apply canonical_groups_elem. cbn.
    split; [|done]. intros Hnil. rewrite Hnil in Hk. by apply elem_of_nil in Hk.
Qed.

Lemma Forall_Parsed_in_range vs : Forall Parsed vs → Forall in_range vs.
Proof. intros H. eapply Forall_impl; [done|]. apply Parsed_in_range. Qed.

(** Runs on the same input agree, whatever order [range] picks. *)
Lemma GroupVersions_runs_agree vs out out' :
  Forall in_range vs →
  GroupVersions_runs vs out → GroupVersions_runs vs out' → out = out'.
Proof.
  intros Hvs (gs & -> & Hp & Hs)%run_result (gs' & -> & Hp' & Hs')%run_result;
    [|done..].
  f_equal. by apply (sorted_groups_unique vs).
Qed.

Lemma GroupVersions_runs_perm vs vs' out out' :
  Forall in_range vs → no_ties vs → vs' ≡ₚ vs →
  GroupVersions_runs vs out → GroupVersions_runs vs' out' → out' = out.
Proof.
  intros Hvs Hnt Hperm Hr Hr'.
  assert (Hvs' : Forall in_range vs') by (by rewrite Hperm).
  apply run_result in Hr as (gs & -> & Hp & Hs); [|done].
  apply run_result in Hr' as (gs' & -> & Hp' & Hs'); [|done].
  f_equal. apply (sorted_groups_unique vs); try done.
  rewrite Hp'. unfold canonical_groups.
  by rewrite (sorted_groups_perm vs vs').
Qed.

Lemma GroupVersions_is_run vs : GroupVersions_runs vs (GroupVersions vs).
Proof. by exists (map_to_list (build_groups vs)). Qed.

(* ================================================================== *)
(** ** Properties of the version model *)
(* ================================================================== *)

Lemma Parsed_RC v : Parsed v → IsRC v = false → RC v = 0.
Proof.
  intros [tag (g & _ & ->)%ParseVersion_inv]. cbn.
  destruct (p_rc g); [|done]. intros H. by apply bool_decide_eq_false_1 in H as [].
Qed.

(** C1.  On versions produced by ParseVersion, Compare is a total order:
    Compare a b is the negation of Compare b a, it is transitive (also in
    its strict forms), it is -1 exactly when [a] is below [b] in the
    lexicographic order over (major, minor, patch) followed by the
    release-candidate rule, and it is 0 exactly when the two versions have
    the same major, minor, patch, isReleaseCandidate and candidateNumber.
    For equal (major, minor, patch) a release candidate is below a final
    release, and between two release candidates the smaller candidateNumber
    is below. *)
Theorem Compare_total_order (ta tb tc : string) (a b c : Version) :
  ParseVersion ta = Ok a → ParseVersion tb = Ok b → ParseVersion tc = Ok c →
  Compare a b = - Compare b a
  ∧ (Compare a b ≤ 0 → Compare b c ≤ 0 → Compare a c ≤ 0)
  ∧ (Compare a b < 0 → Compare b c ≤ 0 → Compare a c < 0)
  ∧ (Compare a b ≤ 0 → Compare b c < 0 → Compare a c < 0)
  ∧ (Compare a b = -1 ↔ version_lt a b)
  ∧ (Compare a b = 1 ↔ version_lt b a)
  ∧ (Compare a b = 0 ↔
       Major a = Major b ∧ Minor a = Minor b ∧ Patch a = Patch b
       ∧ IsRC a = IsRC b ∧ RC a = RC b)
  ∧ (Major a = Major b → Minor a = Minor b → Patch a = Patch b →
     IsRC a = true → IsRC b = false → Compare a b = -1)
  ∧ (Major a = Major b → Minor a = Minor b → Patch a = Patch b →
     IsRC a = true → IsRC b = true → RC a < RC b → Compare a b = -1).
Proof.
  intros Ha Hb Hc.
  split; [apply Compare_antisym|].
  split; [apply Compare_le_trans|].
  split; [apply Compare_lt_le_trans|].
  split; [apply Compare_le_lt_trans|].
  split; [apply Compare_lt_iff|].
  split; [apply Compare_gt_iff|].
  split; [|split].
  - rewrite Compare_eq_iff.
    assert (Pa : Parsed a) by (by exists ta).
    assert (Pb : Parsed b) by (by exists tb).
    pose proof (Parsed_RC a Pa). pose proof (Parsed_RC b Pb).
    destruct (IsRC a) eqn:Ea, (IsRC b) eqn:Eb; intuition (try congruence).
  - intros. apply Compare_lt_iff. unfold version_lt. tauto.
  - intros. apply Compare_lt_iff. unfold version_lt. tauto.
Qed.

Lemma Compare_total_order_witness :
  Compare (mkVersion "go1.22rc1" 1 22 0 1 "1.22rc1" true 0)
          (mkVersion "go1.22" 1 22 0 0 "1.22" false 0)
  = - Compare (mkVersion "go1.22" 1 22 0 0 "1.22" false 0)
              (mkVersion "go1.22rc1" 1 22 0 1 "1.22rc1" true 0).
Proof.
  refine (proj1 (Compare_total_order "go1.22rc1" "go1.22" "go1.22.1"
                   _ _ (mkVersion "go1.22.1" 1 22 1 0 "1.22.1" false 0) _ _ _));
    vm_compute; reflexivity.
Defined.

(** C4.  ParseVersion succeeds exactly on the tags of the grammar: "go",
    an integer major, ".", an integer minor, optionally "." and an integer
    patch, optionally "rc" and an integer candidateNumber, and nothing else,
    an integer being a non-empty run of decimal digits.  Every other string
    fails with InvalidFormat.  On success the fields are the values of the
    integers (as strconv.Atoi gives them), patch is 0 when absent, IsRC
    holds exactly when the rc suffix is present, and FullVersion is
    "{major}.{minor}" extended by ".{patch}" only when patch > 0 and by
    "rc{candidateNumber}" only for a release candidate. *)
Theorem ParseVersion_grammar (tag : string) :
  ((∃ v, ParseVersion tag = Ok v) ↔ (∃ g, matches_grammar tag g))
  ∧ ((¬ ∃ g, matches_grammar tag g) → ParseVersion tag = Err (InvalidFormat tag))
  ∧ (∀ g, matches_grammar tag g →
       ∃ v, ParseVersion tag = Ok v
         ∧ Tag v = tag
         ∧ Major v = int_value (p_major g)
         ∧ Minor v = int_value (p_minor g)
         ∧ Patch v = match p_patch g with Some p => int_value p | None => 0 end
         ∧ (IsRC v = true ↔ is_Some (p_rc g))
         ∧ RC v = match p_rc g with Some r => int_value r | None => 0 end
         ∧ FullVersion v
           = render (Major v) (Minor v) (Patch v) (RC v) (IsRC v)).
Proof.
  split; [split|split].
  - intros [v (g & Hg & _)%ParseVersion_inv]. eauto.
  - intros [g Hg]. eauto using ParseVersion_complete.
  - intros Hno. destruct (ParseVersion tag) as [v|e] eqn:E.
    + apply ParseVersion_inv in E as (g & Hg & _). destruct Hno. eauto.
    + by apply ParseVersion_Err in E as ->.
  - intros g Hg. exists (version_of tag g).
    split; [by apply ParseVersion_complete|].
    cbn. repeat split; try done.
    + intros H. by apply bool_decide_eq_true_1 in H.
    + intros H. by apply bool_decide_eq_true_2.
Qed.

(** C9, at the input where it fails: the tag "go1.22rc0" parses to a
    release candidate whose candidateNumber is 0, not a positive integer. *)
Theorem ParseVersion_rc0 :
  ParseVersion "go1.22rc0"
  = Ok (mkVersion "go1.22rc0" 1 22 0 0 "1.22rc0" true 0).
Proof. vm_compute. reflexivity. Qed.

Lemma ParseVersion_candidate tag v :
  ParseVersion tag = Ok v →
  (IsRC v = false → RC v = 0) ∧ (IsRC v = true → 0 ≤ RC v ≤ Go.MaxInt64).
Proof.
  intros H. split; [apply Parsed_RC; by exists tag|].
  apply ParseVersion_inv in H as (g & [(_ & _ & _ & Hrc) _] & ->). cbn.
  destruct (p_rc g) as [r|] eqn:E.
  - intros _. apply int_value_range. by apply (Hrc r).
  - intros H. by apply bool_decide_eq_true_1 in H as [? [=]].
Qed.

(** C10.  ParseVersion is not injective into the canonical fields: the
    distinct tags "go1.22" and "go1.22.0" both parse, to versions with the
    same major, minor, patch, isReleaseCandidate and candidateNumber and the
    same fullVersion "1.22", on which Compare returns 0; so versions that
    compare equal need not have equal tags. *)
Theorem ParseVersion_not_injective :
  ∃ v1 v2,
    "go1.22" ≠ "go1.22.0"
    ∧ ParseVersion "go1.22" = Ok v1 ∧ ParseVersion "go1.22.0" = Ok v2
    ∧ Major v1 = Major v2 ∧ Minor v1 = Minor v2 ∧ Patch v1 = Patch v2
    ∧ IsRC v1 = IsRC v2 ∧ RC v1 = RC v2
    ∧ FullVersion v1 = "1.22" ∧ FullVersion v2 = "1.22"
    ∧ Compare v1 v2 = 0
    ∧ Tag v1 ≠ Tag v2.
Proof.
  exists (mkVersion "go1.22" 1 22 0 0 "1.22" false 0),
         (mkVersion "go1.22.0" 1 22 0 0 "1.22" false 0).
  split; [done|]. split; [by vm_compute|]. split; [by vm_compute|].
  by repeat split.
Qed.

(* ================================================================== *)
(** ** Properties of GroupVersions *)
(* ================================================================== *)

Lemma parse_all_Parsed tags : Forall Parsed (parse_all tags).
Proof.
  apply Forall_forall. intros v Hv. unfold parse_all in Hv.
  apply list_elem_of_omap in Hv as (t & _ & Ht).
  exists t. by destruct (ParseVersion t) as [v'|]; [injection Ht as ->|].
Qed.

(** C5 as stated fails: two permutations of one collection of parsed
    versions, the parses of "go1.22" and "go1.22.0", give different
    outputs. *)
Lemma GroupVersions_order_dependent :
  ∃ vs vs' out out',
    Forall Parsed vs ∧ vs' ≡ₚ vs
    ∧ GroupVersions_runs vs out ∧ GroupVersions_runs vs' out'
    ∧ out' ≠ out.
Proof.
  exists (parse_all ["go1.22"; "go1.22.0"]), (parse_all ["go1.22.0"; "go1.22"]),
    (GroupVersions (parse_all ["go1.22"; "go1.22.0"])),
    (GroupVersions (parse_all ["go1.22.0"; "go1.22"])).
  split; [apply parse_all_Parsed|].
  split; [vm_compute; apply perm_swap|].
  split; [apply GroupVersions_is_run|].
  split; [apply GroupVersions_is_run|].
  vm_compute. discriminate.
Qed.

(** C5, amended.  On a collection of parsed versions every run of
    GroupVersions returns groups ascending by (major, minor), each a
    non-empty bucket of exactly the input versions with its key, ascending
    by Compare, and every input version has its group; the output does not
    depend on the iteration order of the grouping map; and when no two
    distinct versions of the collection compare equal, every permutation of
    the collection gives the identical output. *)
Theorem GroupVersions_deterministic (vs vs' : list Version)
    (out out' : option (list VersionGroup)) :
  Forall Parsed vs → vs' ≡ₚ vs →
  GroupVersions_runs vs out → GroupVersions_runs vs' out' →
  (∃ gs, out = Some gs
         ∧ groups_ascending gs
         ∧ Forall (group_of vs) gs
         ∧ (∀ v, v ∈ vs → ∃ g, g ∈ gs ∧ MajorMinor g = GetMajorMinor v))
  ∧ (∀ out2, GroupVersions_runs vs out2 → out2 = out)
  ∧ (no_ties vs → out' = out).
Proof.
  intros Hvs%Forall_Parsed_in_range Hperm Hr Hr'. split; [|split].
  - destruct (run_result vs out Hvs Hr) as (gs & -> & Hp & Hs).
    exists gs. split; [done|]. by apply output_properties.
  - intros out2 Hr2. by apply (GroupVersions_runs_agree vs).
  - intros Hnt. by apply (GroupVersions_runs_perm vs vs').
Qed.

Lemma GroupVersions_deterministic_witness :
  GroupVersions (parse_all ["go1.21.0"; "go1.22.1"])
  = GroupVersions (parse_all ["go1.22.1"; "go1.21.0"]).
Proof.
  refine (proj2 (proj2 (GroupVersions_deterministic
            (parse_all ["go1.22.1"; "go1.21.0"])
            (parse_all ["go1.21.0"; "go1.22.1"]) _ _ _ _ _ _)) _).
  - repeat constructor;
      [exists "go1.22.1" | exists "go1.21.0"]; vm_compute; reflexivity.
  - vm_compute. apply perm_swap.
  - eexists. split; reflexivity.
  - eexists. split; reflexivity.
  - assert (parse_all ["go1.22.1"; "go1.21.0"]
            = [mkVersion "go1.22.1" 1 22 1 0 "1.22.1" false 0;
               mkVersion "go1.21.0" 1 21 0 0 "1.21" false 0]) as ->
      by (vm_compute; reflexivity).
    intros a b Ha Hb.
    repeat match goal with
      | H : _ ∈ _ :: _ |- _ => apply elem_of_cons in H as [->|H]
      | H : _ ∈ [] |- _ => by apply elem_of_nil in H
      end; first [reflexivity | vm_compute; discriminate].
Defined.

(** C8.  For the tags "go1.22.1", "go1.22rc1", "go1.21.0", "go1.22.0",
    parsed in that order, every run of GroupVersions returns exactly the
    groups "1.21" with go1.21.0 and "1.22" with go1.22rc1, go1.22.0,
    go1.22.1, in that order. *)
Theorem GroupVersions_scenario (out : option (list VersionGroup)) :
  GroupVersions_runs
    (parse_all ["go1.22.1"; "go1.22rc1"; "go1.21.0"; "go1.22.0"]) out →
  out = Some
    [ mkGroup "1.21" [mkVersion "go1.21.0" 1 21 0 0 "1.21" false 0];
      mkGroup "1.22" [mkVersion "go1.22rc1" 1 22 0 1 "1.22rc1" true 0;
                      mkVersion "go1.22.0" 1 22 0 0 "1.22" false 0;
                      mkVersion "go1.22.1" 1 22 1 0 "1.22.1" false 0] ].
Proof.
  intros Hr.
  rewrite (GroupVersions_runs_agree
             (parse_all ["go1.22.1"; "go1.22rc1"; "go1.21.0"; "go1.22.0"]) out
             (GroupVersions (parse_all ["go1.22.1"; "go1.22rc1"; "go1.21.0"; "go1.22.0"]))).
  - by vm_compute.
  - apply Forall_Parsed_in_range, parse_all_Parsed.
  - done.
  - apply GroupVersions_is_run.
Qed.

Lemma GroupVersions_scenario_witness :
  GroupVersions (parse_all ["go1.22.1"; "go1.22rc1"; "go1.21.0"; "go1.22.0"])
  = Some
    [ mkGroup "1.21" [mkVersion "go1.21.0" 1 21 0 0 "1.21" false 0];
      mkGroup "1.22" [mkVersion "go1.22rc1" 1 22 0 1 "1.22rc1" true 0;
                      mkVersion "go1.22.0" 1 22 0 0 "1.22" false 0;
                      mkVersion "go1.22.1" 1 22 1 0 "1.22.1" false 0] ].
Proof.
  apply GroupVersions_scenario. eexists. split; reflexivity.
Defined.

(* ================================================================== *)
(** ** One page of tags *)
(* ================================================================== *)

Section PageFacts.
Context (existingTags : gmap string bool) (opts : FetchOptions).
Context (minVersion : option Version) (n : nat).

Lemma processTags_allTags tags : ∀ ps,
  (existingCount ps + length tags ≤ n)%nat →
  allTags (processTags existingTags opts minVersion n tags ps)
  = allTags ps ++ included existingTags opts minVersion tags.
Proof.
  induction tags as [|t tl IH]; intros ps Hn.
  { cbn. by rewrite app_nil_r. }
  cbn [processTags length] in *. unfold included, included_tag.
  rewrite filter_cons.
  destruct (known existingTags t) eqn:Hk; cbn [negb andb].
  - rewrite decide_False by done. cbn [existingCount].
    destruct (Nat.eqb_spec (S (existingCount ps)) n) as [He|He].
    + cbn [allTags]. destruct tl; [|cbn in Hn; lia]. by rewrite filter_nil, app_nil_r.
    + by rewrite IH by (cbn; lia).
  - destruct (ParseVersion t) as [v|e]; [destruct (shouldInclude opts minVersion v)|].
    + rewrite decide_True by done. rewrite IH by (cbn; lia).
      cbn [allTags]. by rewrite <- app_assoc.
    + rewrite decide_False by done. by rewrite IH by (cbn; lia).
    + rewrite decide_False by done. by rewrite IH by (cbn; lia).
Qed.

Lemma processTags_flag tags : ∀ ps,
  allExistingFound ps = false →
  (existingCount ps + length tags ≤ n)%nat →
  allExistingFound (processTags existingTags opts minVersion n tags ps) = true
  ↔ tags ≠ [] ∧ all_known existingTags tags
    ∧ (existingCount ps + length tags = n)%nat.
Proof.
  unfold all_known.
  induction tags as [|t tl IH]; intros ps Hf Hn.
  { cbn. rewrite Hf. split; [done|]. by intros [? _]. }
  cbn [processTags length] in *. rewrite Forall_cons.
  destruct (known existingTags t) eqn:Hk.
  - cbn [existingCount].
    destruct (Nat.eqb_spec (S (existingCount ps)) n) as [He|He].
    + cbn [allExistingFound]. destruct tl; [|cbn in Hn; lia].
      split; [|done]. intros _. split; [done|]. split; [by split|]. cbn. lia.
    + rewrite IH by (done || (cbn; lia)). cbn [existingCount]. split.
      * intros (? & ? & ?). split; [done|]. split; [done|]. lia.
      * intros (_ & [_ ?] & ?). split; [|split; [done|lia]].
        intros ->. cbn in *. lia.
  - assert (∀ ps', allExistingFound ps' = false →
                   existingCount ps' = existingCount ps →
              allExistingFound
                (processTags existingTags opts minVersion n tl ps') = true
              ↔ tl ≠ [] ∧ Forall (λ t, known existingTags t = true) tl
                ∧ (existingCount ps' + length tl = n)%nat) as IH'.
    { intros ps' Hf' Hc. apply IH; [done|lia]. }
    assert (∀ ps', allExistingFound ps' = false →
                   existingCount ps' = existingCount ps →
              allExistingFound
                (processTags existingTags opts minVersion n tl ps') = true
              ↔ (t :: tl) ≠ [] ∧ (false = true ∧ Forall (λ t, known existingTags t = true) tl)
                ∧ (existingCount ps + S (length tl) = n)%nat) as Hgoal.
    { intros ps' Hf' Hc. rewrite IH' by done. split.
      - intros (_ & _ & ?). lia.
      - by intros (_ & [? _] & _). }
    destruct (ParseVersion t) as [v|e]; [destruct (shouldInclude opts minVersion v)|];
      by apply Hgoal.
Qed.

End PageFacts.

Lemma page_allTags existingTags opts minVersion tags acc :
  allTags (processTags existingTags opts minVersion (length tags) tags
             (mkPage acc 0 0 0 false))
  = acc ++ included existingTags opts minVersion tags.
Proof. by apply processTags_allTags. Qed.

Lemma page_flag existingTags opts minVersion tags acc :
  tags ≠ [] →
  allExistingFound (processTags existingTags opts minVersion (length tags) tags
                      (mkPage acc 0 0 0 false)) = true
  ↔ all_known existingTags tags.
Proof.
  intros Hne. rewrite processTags_flag by done. cbn. tauto.
Qed.

Lemma included_all_known existingTags opts minVersion tags :
  all_known existingTags tags → included existingTags opts minVersion tags = [].
Proof.
  induction 1 as [|t tl Ht _ IH]; [done|].
  unfold included, included_tag in *. rewrite filter_cons, Ht. cbn.
  by rewrite decide_False.
Qed.

(* ================================================================== *)
(** ** One iteration of the fetch loop *)
(* ================================================================== *)

Section PipelineFacts.
Context {World : Type}.
Context (ctxDone : World → bool).
Context (ListTags : World → Z → Z → ListTagsReply * World).
Context (existingTags : gmap string bool) (opts : FetchOptions).
Context (minVersion : option Version).

Local Abbreviation loop := (fetchLoop ctxDone ListTags existingTags opts minVersion).
Local Abbreviation keep := (included existingTags opts minVersion).

Lemma fetchLoop_request_failed fuel w page acc reqs reply w' e :
  ctxDone w = false → ListTags w page perPage = (reply, w') →
  reply_err reply = Some e →
  loop (S fuel) w page acc reqs
  = Some (mkResult acc (Some (classify page e)) (reqs ++ [page]), w').
Proof.
  intros Hd Hl He. cbn [fetchLoop]. rewrite Hd, Hl, He. by destruct e.
Qed.

Lemma fetchLoop_bad_status fuel w page acc reqs reply w' r :
  ctxDone w = false → ListTags w page perPage = (reply, w') →
  reply_err reply = None → reply_resp reply = Some r →
  StatusCode r ≠ StatusOK →
  loop (S fuel) w page acc reqs
  = Some (mkResult acc (Some (BadStatus (StatusCode r) page)) (reqs ++ [page]),
          w').
Proof.
  intros Hd Hl He Hr Hs. cbn [fetchLoop]. rewrite Hd, Hl, He, Hr.
  by destruct (Z.eqb_spec (StatusCode r) StatusOK).
Qed.

Lemma fetchLoop_timeout fuel w page acc reqs :
  ctxDone w = true →
  loop (S fuel) w page acc reqs = Some (mkResult acc (Some Timeout) reqs, w).
Proof. intros Hd. cbn [fetchLoop]. by rewrite Hd. Qed.

Lemma status_ok_check reply :
  status_ok reply →
  match reply_resp reply with
  | Some r => if negb (StatusCode r =? StatusOK) then Some (StatusCode r) else None
  | None => None
  end = None.
Proof.
  unfold status_ok. destruct (reply_resp reply) as [r|]; [|done].
  intros ->. by rewrite Z.eqb_refl.
Qed.

Lemma fetchLoop_empty_page fuel w page acc reqs reply w' :
  ctxDone w = false → ListTags w page perPage = (reply, w') →
  reply_err reply = None → status_ok reply → reply_tags reply = [] →
  loop (S fuel) w page acc reqs = Some (mkResult acc None (reqs ++ [page]), w').
Proof.
  intros Hd Hl He Hs Ht. cbn [fetchLoop].
  by rewrite Hd, Hl, He, (status_ok_check _ Hs), Ht.
Qed.

Lemma fetchLoop_early_stop fuel w page acc reqs reply w' :
  ctxDone w = false → ListTags w page perPage = (reply, w') →
  reply_err reply = None → status_ok reply →
  all_known existingTags (reply_tags reply) →
  loop (S fuel) w page acc reqs = Some (mkResult acc None (reqs ++ [page]), w').
Proof.
  intros Hd Hl He Hs Hk.
  destruct (reply_tags reply) as [|t tl] eqn:Ht.
  { by apply (fetchLoop_empty_page _ _ _ _ _ reply). }
  cbn [fetchLoop]. rewrite Hd, Hl, He, (status_ok_check _ Hs), Ht.
  rewrite <- Ht in *.
  assert (reply_tags reply ≠ []) as Hne by (by rewrite Ht).
  apply (page_flag existingTags opts minVersion _ acc Hne) in Hk as Hflag.
  rewrite Hflag, page_allTags, included_all_known by done.
  by rewrite app_nil_r.
Qed.

Lemma fetchLoop_last_page fuel w page acc reqs reply w' :
  ctxDone w = false → ListTags w page perPage = (reply, w') →
  reply_err reply = None → status_ok reply →
  ¬ all_known existingTags (reply_tags reply) →
  (reply_resp reply = None ∨ ∃ r, reply_resp reply = Some r ∧ NextPage r = 0) →
  loop (S fuel) w page acc reqs
  = Some (mkResult (acc ++ keep (reply_tags reply)) None (reqs ++ [page]), w').
Proof.
  intros Hd Hl He Hs Hk Hlast.
  destruct (reply_tags reply) as [|t tl] eqn:Ht.
  { destruct Hk. constructor. }
  cbn [fetchLoop]. rewrite Hd, Hl, He, (status_ok_check _ Hs), Ht.
  rewrite <- Ht in *.
  assert (reply_tags reply ≠ []) as Hne by (by rewrite Ht).
  destruct (allExistingFound _) eqn:Hflag.
  { apply (page_flag existingTags opts minVersion _ acc Hne) in Hflag. done. }
  rewrite page_allTags.
  destruct Hlast as [->|(r & -> & ->)]; [done|]. by rewrite Z.eqb_refl.
Qed.

Lemma fetchLoop_next_page fuel w page acc reqs reply w' r :
  ctxDone w = false → ListTags w page perPage = (reply, w') →
  reply_err reply = None → status_ok reply →
  ¬ all_known existingTags (reply_tags reply) →
  reply_resp reply = Some r → NextPage r ≠ 0 →
  loop (S fuel) w page acc reqs
  = loop fuel w' (NextPage r) (acc ++ keep (reply_tags reply)) (reqs ++ [page]).
Proof.
  intros Hd Hl He Hs Hk Hr Hnp.
  destruct (reply_tags reply) as [|t tl] eqn:Ht.
  { destruct Hk. constructor. }
  cbn [fetchLoop]. rewrite Hd, Hl, He, (status_ok_check _ Hs), Ht.
  rewrite <- Ht in *.
  assert (reply_tags reply ≠ []) as Hne by (by rewrite Ht).
  destruct (allExistingFound _) eqn:Hflag.
  { apply (page_flag existingTags opts minVersion _ acc Hne) in Hflag. done. }
  rewrite page_allTags, Hr.
  by destruct (Z.eqb_spec (NextPage r) 0).
Qed.

(** Whatever the loop returns starts with what was accumulated before. *)
Lemma fetchLoop_keeps_progress fuel : ∀ w page acc reqs res w',
  loop fuel w page acc reqs = Some (res, w') →
  ∃ more, tags res = acc ++ more.
Proof.
  induction fuel as [|fuel IH]; intros w page acc reqs res w'; [done|].
  cbn [fetchLoop].
  destruct (ctxDone w).
  { intros [= <- <-]. exists []. by rewrite app_nil_r. }
  destruct (ListTags w page perPage) as [reply w1].
  destruct (reply_err reply).
  { intros [= <- <-]. exists []. by rewrite app_nil_r. }
  destruct (match reply_resp reply with Some _ => _ | None => _ end).
  { intros [= <- <-]. exists []. by rewrite app_nil_r. }
  destruct (reply_tags reply) as [|t tl] eqn:Ht.
  { intros [= <- <-]. exists []. by rewrite app_nil_r. }
  rewrite <- Ht. rewrite page_allTags.
  destruct (allExistingFound _).
  { intros [= <- <-]. by eexists. }
  destruct (reply_resp reply) as [r|].
  - destruct (NextPage r =? 0).
    + intros [= <- <-]. by eexists.
    + intros (more & ->)%IH. rewrite <- app_assoc. by eexists.
  - intros [= <- <-]. by eexists.
Qed.

End PipelineFacts.

(* ================================================================== *)
(** ** Filters and options *)
(* ================================================================== *)

Lemma shouldInclude_spec opts minVersion v :
  AllVersions opts = false →
  shouldInclude opts minVersion v = true
  ↔ (∀ m, minVersion = Some m → 0 ≤ Compare v m)
    ∧ (0 < MinYear opts → MinYear opts ≤ estimatedYear v).
Proof.
  intros Ha. unfold shouldInclude. rewrite Ha. cbn [negb].
  destruct minVersion as [m|].
  - destruct (Z.ltb_spec (Compare v m) 0).
    + rewrite andb_false_r. split; [done|]. intros [H1 _].
      specialize (H1 m eq_refl). lia.
    + rewrite andb_true_r. destruct (Z.gtb_spec (MinYear opts) 0).
      * destruct (Z.ltb_spec (estimatedYear v) (MinYear opts)).
        -- split; [done|]. intros [_ H2]. lia.
        -- split; [|done]. intros _. split; [|lia]. intros ? [= <-]. lia.
      * split; [|done]. intros _. split; [|lia]. intros ? [= <-]. lia.
  - rewrite andb_true_r. destruct (Z.gtb_spec (MinYear opts) 0).
    + destruct (Z.ltb_spec (estimatedYear v) (MinYear opts)).
      * split; [done|]. intros [_ H2]. lia.
      * split; [|done]. intros _. split; [done|lia].
    + split; [|done]. intros _. split; [done|lia].
Qed.

Lemma resolveOptions_minVersion options :
  AllVersions (resolveOptions options) = false →
  MinVersion (resolveOptions options) ≠ "".
Proof.
  unfold resolveOptions.
  cbv zeta.
  match goal with
  | |- context [foldl ?f ?a options] => generalize (foldl f a options)
  end.
  intros raw.
  destruct (bool_decide (MinVersion raw = "")) eqn:E, (AllVersions raw) eqn:Ea;
    cbn [andb negb MinVersion AllVersions]; rewrite ?Ea; try done.
  all: intros _; by apply bool_decide_eq_false in E.
Qed.

(** C7.  When allVersions is not set and the effective minVersion (the
    caller's, or the default when none was given) does not parse after
    normalization, FetchTags returns the nil tag sequence with the error,
    requests no page and leaves the world untouched, whatever the bound on
    iterations. *)
Theorem invalid_minVersion_aborts {World : Type} (ctxDone : World → bool)
    (ListTags : World → Z → Z → ListTagsReply * World)
    (existingTags : gmap string bool) (options : list Option)
    (fuel : nat) (w : World) (e : ParseError) :
  AllVersions (resolveOptions options) = false →
  ParseVersion (NormalizeVersion (MinVersion (resolveOptions options))) = Err e →
  FetchTags ctxDone ListTags existingTags options fuel w
  = Some (mkResult []
            (Some (InvalidMinVersion (MinVersion (resolveOptions options)) e))
            [], w).
Proof.
  intros Ha He. unfold FetchTags, parseMinVersion.
  rewrite bool_decide_eq_false_2 by (by apply resolveOptions_minVersion).
  rewrite Ha. cbn [negb andb]. by rewrite He.
Qed.

Lemma invalid_minVersion_aborts_witness :
  FetchTags never_done (one_page ["go1.22.0"] 0) ∅ [WithMinVersion "latest"] 5 0%nat
  = Some (mkResult []
            (Some (InvalidMinVersion "latest" (InvalidFormat "golatest")))
            [], 0%nat).
Proof.
  apply (invalid_minVersion_aborts never_done (one_page ["go1.22.0"] 0) ∅
           [WithMinVersion "latest"] 5 0%nat (InvalidFormat "golatest"));
    vm_compute; reflexivity.
Defined.

(* ================================================================== *)
(** ** Early stop and failures *)
(* ================================================================== *)

(** C2 as stated fails: served one page whose only entry is unknown and
    whose response names no next page, FetchTags stops after that page, with
    one request made and room for more iterations. *)
Lemma stop_without_early_stop :
  FetchTags never_done (one_page ["go1.22.0"] 0) ∅ [] 3 0%nat
  = Some (mkResult ["go1.22.0"] None [1], 1%nat)
  ∧ ¬ all_known ∅ ["go1.22.0"].
Proof.
  split; [by vm_compute|].
  intros H. apply Forall_cons in H as [H _]. by vm_compute in H.
Qed.

(** C2, amended.  After a successfully served page the early-stop flag is
    set exactly when every entry of the (non-empty) page is in existingTags;
    FetchTags then returns what it had accumulated, without error and
    without a further request.  When some entry is unknown it returns after
    this page exactly when the response names no next page, and otherwise
    goes on with the next page.  In particular, when existingTags holds
    every tag of the first page served, FetchTags makes exactly one request
    and returns no new tag and no error. *)
Theorem early_stop_rule {World : Type} (ctxDone : World → bool)
    (ListTags : World → Z → Z → ListTagsReply * World)
    (existingTags : gmap string bool) (options : list Option)
    (minVersion : option Version) (fuel : nat) (w w' : World) (page : Z)
    (acc : list string) (reqs : list Z) (reply : ListTagsReply) :
  parseMinVersion (resolveOptions options) = Ok minVersion →
  ctxDone w = false →
  ListTags w page perPage = (reply, w') →
  reply_err reply = None → status_ok reply →
  let opts := resolveOptions options in
  let loop := fetchLoop ctxDone ListTags existingTags opts minVersion in
  let keep := included existingTags opts minVersion in
  (reply_tags reply ≠ [] →
   allExistingFound
     (processTags existingTags opts minVersion (length (reply_tags reply))
        (reply_tags reply) (mkPage acc 0 0 0 false)) = true
   ↔ all_known existingTags (reply_tags reply))
  ∧ (all_known existingTags (reply_tags reply) →
     loop (S fuel) w page acc reqs
     = Some (mkResult acc None (reqs ++ [page]), w'))
  ∧ (¬ all_known existingTags (reply_tags reply) →
     (reply_resp reply = None
      ∨ ∃ r, reply_resp reply = Some r ∧ NextPage r = 0) →
     loop (S fuel) w page acc reqs
     = Some (mkResult (acc ++ keep (reply_tags reply)) None (reqs ++ [page]),
             w'))
  ∧ (¬ all_known existingTags (reply_tags reply) →
     ∀ r, reply_resp reply = Some r → NextPage r ≠ 0 →
     loop (S fuel) w page acc reqs
     = loop fuel w' (NextPage r) (acc ++ keep (reply_tags reply))
         (reqs ++ [page]))
  ∧ (page = 1 → all_known existingTags (reply_tags reply) →
     FetchTags ctxDone ListTags existingTags options (S fuel) w
     = Some (mkResult [] None [1], w')).
Proof.
  intros Hmin Hd Hl He Hs opts loop keep.
  split; [intros Hne; by apply page_flag|].
  split; [intros Hk; by apply (fetchLoop_early_stop _ _ _ _ _ _ _ _ _ _ reply)|].
  split; [intros Hk Hlast; by apply fetchLoop_last_page|].
  split; [intros Hk r Hr Hnp; by apply (fetchLoop_next_page _ _ _ _ _ _ _ _ _ _ reply)|].
  intros -> Hk. unfold FetchTags. rewrite Hmin.
  by apply (fetchLoop_early_stop ctxDone ListTags existingTags opts minVersion
              fuel w 1 [] [] reply w').
Qed.

Lemma early_stop_rule_witness :
  FetchTags never_done (one_page ["go1.22.0"; "go1.21.0"] 2)
    {["go1.22.0" := true; "go1.21.0" := true]} [] 1 0%nat
  = Some (mkResult [] None [1], 1%nat).
Proof.
  refine (proj2 (proj2 (proj2 (proj2
    (early_stop_rule never_done (one_page ["go1.22.0"; "go1.21.0"] 2)
       {["go1.22.0" := true; "go1.21.0" := true]} []
       (Some (mkVersion "go1.10" 1 10 0 0 "1.10" false 0)) 0 0%nat 1%nat 1 [] []
       (mkReply ["go1.22.0"; "go1.21.0"] (Some (mkResponse StatusOK 2)) None)
       _ _ _ _ _)))) eq_refl _).
  - by vm_compute.
  - done.
  - done.
  - done.
  - done.
  - repeat constructor.
Defined.

(** C3.  When a page request fails, with a rate-limit, abuse or any other
    error, or with a status other than 200, the loop returns at once: the
    tags accumulated from the earlier pages together with the classified
    error, the failed request being the last one made.  No run of the loop
    ever drops what was accumulated.  In particular, when page 1 is served
    and page 2 hits the rate limit, FetchTags returns the tags included from
    page 1 with RateLimited, after the requests for pages 1 and 2. *)
Theorem partial_result_on_failure {World : Type} (ctxDone : World → bool)
    (ListTags : World → Z → Z → ListTagsReply * World)
    (existingTags : gmap string bool) (options : list Option)
    (minVersion : option Version) (fuel : nat) (w w' : World) (page : Z)
    (acc : list string) (reqs : list Z) (reply : ListTagsReply) :
  parseMinVersion (resolveOptions options) = Ok minVersion →
  ctxDone w = false →
  ListTags w page perPage = (reply, w') →
  let opts := resolveOptions options in
  let loop := fetchLoop ctxDone ListTags existingTags opts minVersion in
  let keep := included existingTags opts minVersion in
  (∀ e, reply_err reply = Some e →
     loop (S fuel) w page acc reqs
     = Some (mkResult acc (Some (classify page e)) (reqs ++ [page]), w'))
  ∧ (∀ r, reply_err reply = None → reply_resp reply = Some r →
     StatusCode r ≠ StatusOK →
     loop (S fuel) w page acc reqs
     = Some (mkResult acc (Some (BadStatus (StatusCode r) page))
               (reqs ++ [page]), w'))
  ∧ (∀ n w0 p0 acc0 reqs0 res w1,
       loop n w0 p0 acc0 reqs0 = Some (res, w1) →
       ∃ more, tags res = acc0 ++ more)
  ∧ (page = 1 → reply_err reply = None →
     ∀ r reply2 w2,
       reply_resp reply = Some r → StatusCode r = StatusOK → NextPage r = 2 →
       ¬ all_known existingTags (reply_tags reply) →
       ctxDone w' = false →
       ListTags w' 2 perPage = (reply2, w2) →
       reply_err reply2 = Some RateLimitError →
       FetchTags ctxDone ListTags existingTags options (S (S fuel)) w
       = Some (mkResult (keep (reply_tags reply)) (Some RateLimited) [1; 2],
               w2)).
Proof.
  intros Hmin Hd Hl opts loop keep.
  split; [intros e He; by apply (fetchLoop_request_failed _ _ _ _ _ _ _ _ _ _ reply)|].
  split; [intros r He Hr Hs; by apply (fetchLoop_bad_status _ _ _ _ _ _ _ _ _ _ reply)|].
  split; [intros n w0 p0 acc0 reqs0 res w1; apply fetchLoop_keeps_progress|].
  intros -> He r reply2 w2 Hr Hs Hnp Hk Hd' Hl' He2.
  unfold FetchTags. rewrite Hmin.
  rewrite (fetchLoop_next_page _ _ _ _ _ _ _ _ _ _ reply w' r); try done.
  - rewrite Hnp.
    by rewrite (fetchLoop_request_failed _ _ _ _ _ _ _ _ _ _ reply2 w2 RateLimitError).
  - unfold status_ok. by rewrite Hr.
  - rewrite Hnp. done.
Qed.

Lemma partial_result_on_failure_witness :
  FetchTags never_done (page_then_rate_limit ["go1.22.0"; "v0.1"; "go1.9"]) ∅ []
    2 0%nat
  = Some (mkResult ["go1.22.0"] (Some RateLimited) [1; 2], 2%nat).
Proof.
  refine (proj2 (proj2 (proj2
    (partial_result_on_failure never_done
       (page_then_rate_limit ["go1.22.0"; "v0.1"; "go1.9"]) ∅ []
       (Some (mkVersion "go1.10" 1 10 0 0 "1.10" false 0)) 0 0%nat 1%nat 1 [] []
       (mkReply ["go1.22.0"; "v0.1"; "go1.9"] (Some (mkResponse StatusOK 2)) None)
       _ _ _))) eq_refl eq_refl (mkResponse StatusOK 2)
       (mkReply [] None (Some RateLimitError)) 2%nat _ _ _ _ _ _ _).
  - by vm_compute.
  - done.
  - done.
  - done.
  - done.
  - done.
  - intros H. apply Forall_cons in H as [H _]. by vm_compute in H.
  - done.
  - done.
  - done.
Defined.

(* ================================================================== *)
(** ** The filter rule *)
(* ================================================================== *)

Lemma wrap64_small z : - 2 ^ 63 ≤ z < 2 ^ 63 → Go.wrap64 z = z.
Proof. intros H. unfold Go.wrap64. rewrite Z.mod_small; lia. Qed.

(** Without overflow the estimate is the formula of the source. *)
Lemma estimatedYear_small v :
  0 ≤ Major v < 2 ^ 62 → 0 ≤ Minor v < 2 ^ 62 →
  estimatedYear v = 2012 + (Major v - 1) + Minor v / 6.
Proof.
  intros HM Hm. unfold estimatedYear, Go.div.
  rewrite Z.quot_div_nonneg by lia.
  assert (0 ≤ Minor v / 6 < 2 ^ 60).
  { split; [apply Z.div_pos; lia|]. apply Z.div_lt_upper_bound; lia. }
  rewrite !Z.mul_1_r.
  rewrite !(wrap64_small (Major v - 1)) by lia.
  rewrite !(wrap64_small (Minor v / 6)) by lia.
  rewrite (wrap64_small (2012 + _)) by lia.
  rewrite wrap64_small by lia. lia.
Qed.

(** C6.  When allVersions is not set, a tag of a page that is not in
    existingTags and parses is appended to the result exactly when its
    version is not below the minVersion threshold (if there is one) and,
    if minYear > 0, its estimated year is at least minYear.  With minVersion
    "go1.22", go1.21.5 is left out and go1.22.0 is kept; go1.22.0, whose
    estimated year is 2015, is left out as soon as minYear is 2016. *)
Theorem filter_rule (existingTags : gmap string bool) (opts : FetchOptions)
    (minVersion : option Version) (tags acc : list string)
    (t : string) (v : Version) :
  AllVersions opts = false →
  known existingTags t = false →
  ParseVersion t = Ok v →
  (shouldInclude opts minVersion v = true
   ↔ (∀ m, minVersion = Some m → 0 ≤ Compare v m)
     ∧ (0 < MinYear opts → MinYear opts ≤ estimatedYear v))
  ∧ allTags (processTags existingTags opts minVersion (length tags) tags
               (mkPage acc 0 0 0 false))
    = acc ++ included existingTags opts minVersion tags
  ∧ (t ∈ included existingTags opts minVersion tags
     ↔ t ∈ tags
       ∧ (∀ m, minVersion = Some m → 0 ≤ Compare v m)
       ∧ (0 < MinYear opts → MinYear opts ≤ estimatedYear v))
  ∧ FetchTags never_done (one_page ["go1.21.5"; "go1.22.0"] 0) ∅
      [WithMinVersion "go1.22"] 1 0%nat
    = Some (mkResult ["go1.22.0"] None [1], 1%nat)
  ∧ estimatedYear (mkVersion "go1.22.0" 1 22 0 0 "1.22" false 0) = 2015
  ∧ FetchTags never_done (one_page ["go1.21.5"; "go1.22.0"] 0) ∅
      [WithMinVersion "go1.22"; WithMinYear 2016] 1 0%nat
    = Some (mkResult [] None [1], 1%nat).
Proof.
  intros Ha Hk Hp.
  split; [by apply shouldInclude_spec|].
  split; [apply page_allTags|].
  split; [|split; [by vm_compute|split; by vm_compute]].
  unfold included. rewrite list_elem_of_filter. unfold included_tag.
  rewrite Hk, Hp. cbn [negb andb].
  rewrite (shouldInclude_spec opts minVersion v Ha). tauto.
Qed.

Lemma filter_rule_witness :
  "go1.22.0" ∈ included ∅ (mkOptions "go1.22" 0 false)
                 (Some (mkVersion "go1.22" 1 22 0 0 "1.22" false 0))
                 ["go1.21.5"; "go1.22.0"].
Proof.
  apply (proj1 (proj2 (proj2 (filter_rule ∅ (mkOptions "go1.22" 0 false)
           (Some (mkVersion "go1.22" 1 22 0 0 "1.22" false 0))
           ["go1.21.5"; "go1.22.0"] [] "go1.22.0"
           (mkVersion "go1.22.0" 1 22 0 0 "1.22" false 0)
           eq_refl ltac:(by vm_compute) ltac:(by vm_compute))))).
  split; [right; left|].
  split; [intros m [= <-]; by vm_compute|]. cbn. lia.
Defined.

(* ================================================================== *)
(** ** Round trips and invariants of ParseVersion *)
(* ================================================================== *)

Lemma ParseVersion_fields tag v :
  ParseVersion tag = Ok v →
  fields_in_range v
  ∧ FullVersion v = render (Major v) (Minor v) (Patch v) (RC v) (IsRC v)
  ∧ (IsRC v = false → RC v = 0) ∧ FetchedAt v = 0 ∧ Tag v = tag.
Proof.
  intros H. pose proof (Parsed_RC v (ex_intro _ tag H)) as Hrc.
  apply ParseVersion_inv in H as (g & [(Hmj & Hmn & Hpt & Hr) _] & ->).
  split; [|by repeat split].
  unfold fields_in_range. cbn [version_of Major Minor Patch RC].
  split; [apply int_value_range, Hmj|]. split; [apply int_value_range, Hmn|].
  split.
  - destruct (p_patch g) as [p|] eqn:E; [|by unfold Go.MaxInt64].
    apply int_value_range. by apply (Hpt p).
  - destruct (p_rc g) as [r|] eqn:E; [|by unfold Go.MaxInt64].
    apply int_value_range. by apply (Hr r).
Qed.

Lemma canonical_parts_grammar v :
  fields_in_range v →
  FullVersion v = render (Major v) (Minor v) (Patch v) (RC v) (IsRC v) →
  matches_grammar ("go" +:+ FullVersion v) (canonical_parts v).
Proof.
  intros ([HM _] & [Hm _] & [Hp _] & [Hr _]) Hfv. split.
  - unfold parts_wf, canonical_parts. cbn [p_major p_minor p_patch p_rc].
    split; [by apply digits_of_int|]. split; [by apply digits_of_int|]. split.
    + intros p. destruct (0 <? Patch v); [|done].
      intros E%(inj Some). subst p. by apply digits_of_int.
    + intros r. destruct (IsRC v); [|done].
      intros E%(inj Some). subst r. by apply digits_of_int.
  - rewrite Hfv. unfold render, assemble, canonical_parts.
    cbn [p_major p_minor p_patch p_rc].
    destruct (0 <? Patch v), (IsRC v);
      rewrite !bytes_app, !Itoa_nonneg, !bytes_str by done;
      by rewrite <- ?app_assoc, ?app_nil_r.
Qed.

Lemma FullVersion_parses (tag : string) (v : Version) :
  ParseVersion tag = Ok v →
  ParseVersion ("go" +:+ FullVersion v)
  = Ok (mkVersion ("go" +:+ FullVersion v) (Major v) (Minor v) (Patch v)
          (RC v) (FullVersion v) (IsRC v) 0).
Proof.
  intros (Hr & Hfv & Hrc & _ & _)%ParseVersion_fields.
  rewrite (ParseVersion_complete _ _ (canonical_parts_grammar v Hr Hfv)).
  destruct Hr as (HM & Hm & Hp & HR).
  unfold version_of, canonical_parts. cbn [p_major p_minor p_patch p_rc].
  rewrite !int_value_digits_of by done.
  assert ((match (if 0 <? Patch v then Some (Go.digits_of 20 (Patch v)) else None)
           with Some p => int_value p | None => 0 end) = Patch v) as ->.
  { destruct (Z.ltb_spec 0 (Patch v)); [by rewrite int_value_digits_of|lia]. }
  assert ((match (if IsRC v then Some (Go.digits_of 20 (RC v)) else None)
           with Some r => int_value r | None => 0 end) = RC v) as ->.
  { destruct (IsRC v); [by rewrite int_value_digits_of|by rewrite Hrc]. }
  assert (bool_decide
            (is_Some (if IsRC v then Some (Go.digits_of 20 (RC v)) else None))
          = IsRC v) as ->.
  { destruct (IsRC v); [by apply bool_decide_eq_true_2|].
    apply bool_decide_eq_false_2. by intros [? [=]]. }
  by rewrite <- Hfv.
Qed.

(** X1.  Round trip: the canonical string of a parsed version, with "go"
    before it, parses again, to the same major, minor, patch, candidate
    number and release-candidate flag and the same canonical string. *)
Theorem ParseVersion_FullVersion_roundtrip (tag : string) (v : Version) :
  ParseVersion tag = Ok v →
  ParseVersion ("go" +:+ FullVersion v)
  = Ok (mkVersion ("go" +:+ FullVersion v) (Major v) (Minor v) (Patch v)
          (RC v) (FullVersion v) (IsRC v) 0).
Proof. apply FullVersion_parses. Qed.

Lemma ParseVersion_FullVersion_roundtrip_witness :
  ParseVersion "go1.22"
  = Ok (mkVersion "go1.22" 1 22 0 0 "1.22" false 0).
Proof.
  apply (ParseVersion_FullVersion_roundtrip "go1.22.0"
           (mkVersion "go1.22.0" 1 22 0 0 "1.22" false 0)).
  vm_compute. reflexivity.
Defined.

(** X2.  Two parsed versions have the same group key exactly when they
    agree on major and minor. *)
Theorem GetMajorMinor_key (ta tb : string) (a b : Version) :
  ParseVersion ta = Ok a → ParseVersion tb = Ok b →
  GetMajorMinor a = GetMajorMinor b ↔ Major a = Major b ∧ Minor a = Minor b.
Proof.
  intros Ha Hb. split.
  - apply GetMajorMinor_inj; apply Parsed_in_range; by eexists.
  - intros [HM Hm]. unfold GetMajorMinor. by rewrite HM, Hm.
Qed.

Lemma GetMajorMinor_key_witness :
  GetMajorMinor (mkVersion "go1.22.1" 1 22 1 0 "1.22.1" false 0)
  = GetMajorMinor (mkVersion "go1.22rc1" 1 22 0 1 "1.22rc1" true 0)
  ↔ 1 = 1 ∧ 22 = 22.
Proof.
  apply (GetMajorMinor_key "go1.22.1" "go1.22rc1"); vm_compute; reflexivity.
Defined.

(** X3.  ParseVersion returns numbers of [int] that are not negative,
    whatever the length of the digits in the tag (a number too long for
    [int] comes out as the largest [int]), keeps the tag, sets no time,
    leaves the candidate number 0 when the tag has no candidate part, and
    builds the canonical string from the numbers. *)
Theorem ParseVersion_result_invariants (tag : string) (v : Version) :
  ParseVersion tag = Ok v →
  fields_in_range v
  ∧ Tag v = tag ∧ FetchedAt v = 0
  ∧ (IsRC v = false → RC v = 0)
  ∧ FullVersion v = render (Major v) (Minor v) (Patch v) (RC v) (IsRC v).
Proof.
  intros (? & ? & ? & ? & ?)%ParseVersion_fields. done.
Qed.

Lemma ParseVersion_result_invariants_witness :
  fields_in_range
    (mkVersion "go99999999999999999999.022rc5" Go.MaxInt64 22 0 5
       "9223372036854775807.22rc5" true 0)
  ∧ "go99999999999999999999.022rc5" = "go99999999999999999999.022rc5"
  ∧ 0 = 0
  ∧ (true = false → 5 = 0)
  ∧ "9223372036854775807.22rc5"
    = render Go.MaxInt64 22 0 5 true.
Proof.
  apply (ParseVersion_result_invariants "go99999999999999999999.022rc5"
           (mkVersion "go99999999999999999999.022rc5" Go.MaxInt64 22 0 5
              "9223372036854775807.22rc5" true 0)).
  vm_compute. reflexivity.
Defined.

(** X4.  Two parsed versions compare equal exactly when they have the same
    canonical string. *)
Theorem Compare_equal_iff_FullVersion (ta tb : string) (a b : Version) :
  ParseVersion ta = Ok a → ParseVersion tb = Ok b →
  Compare a b = 0 ↔ FullVersion a = FullVersion b.
Proof.
  intros Ha Hb.
  pose proof (FullVersion_parses _ _ Ha) as Ra.
  pose proof (FullVersion_parses _ _ Hb) as Rb.
  apply ParseVersion_fields in Ha as (_ & Fa & RCa & _).
  apply ParseVersion_fields in Hb as (_ & Fb & RCb & _).
  rewrite Compare_eq_iff. split.
  - intros (E1 & E2 & E3 & E4 & E5). rewrite Fa, Fb, E1, E2, E3, E4.
    f_equal. destruct (IsRC a) eqn:E; [by apply E5|].
    rewrite RCa by done. rewrite RCb by congruence. done.
  - intros E. rewrite E, Rb in Ra. injection Ra as -> -> -> -> ->. done.
Qed.

Lemma Compare_equal_iff_FullVersion_witness :
  Compare (mkVersion "go1.22" 1 22 0 0 "1.22" false 0)
    (mkVersion "go01.22.0" 1 22 0 0 "1.22" false 0) = 0
  ↔ "1.22" = "1.22".
Proof.
  apply (Compare_equal_iff_FullVersion "go1.22" "go01.22.0");
    vm_compute; reflexivity.
Defined.

(* ================================================================== *)
(** ** GroupVersions keeps the versions *)
(* ================================================================== *)

Lemma bind_Permutation_ext {A B} (f g : A → list B) (l : list A) :
  (∀ x, f x ≡ₚ g x) → l ≫= f ≡ₚ l ≫= g.
Proof.
  intros H. induction l as [|x l IH]; [done|].
  rewrite !bind_cons. by rewrite (H x), IH.
Qed.

Lemma add_version_entries (m : gmap string (list Version)) v :
  map_to_list (add_version m v) ≫= snd ≡ₚ (map_to_list m ≫= snd) ++ [v].
Proof.
  unfold add_version. destruct (m !! GetMajorMinor v) as [l|] eqn:E.
  - rewrite <- insert_delete_eq.
    rewrite map_to_list_insert by apply lookup_delete_eq.
    rewrite <- (map_to_list_delete m _ _ E).
    rewrite !bind_cons. cbn [snd default]. unfold id.
    rewrite <- !app_assoc. apply Permutation_app_head, Permutation_app_comm.
  - rewrite map_to_list_insert by done. rewrite bind_cons. cbn [snd default app].
    apply (Permutation_app_comm [v]).
Qed.

Lemma foldl_add_version_entries vs : ∀ m : gmap string (list Version),
  map_to_list (foldl add_version m vs) ≫= snd
  ≡ₚ (map_to_list m ≫= snd) ++ vs.
Proof.
  induction vs as [|v vs IH]; intros m; cbn [foldl].
  - by rewrite app_nil_r.
  - rewrite IH, add_version_entries. by rewrite <- app_assoc.
Qed.

Lemma build_groups_entries vs : map_to_list (build_groups vs) ≫= snd ≡ₚ vs.
Proof.
  unfold build_groups. rewrite foldl_add_version_entries.
  by rewrite map_to_list_empty.
Qed.

Lemma canonical_groups_versions vs : canonical_groups vs ≫= Versions ≡ₚ vs.
Proof.
  rewrite <- (to_group_entries vs (map_to_list (build_groups vs))) by done.
  rewrite list_fmap_bind.
  rewrite <- (build_groups_entries vs) at 2.
  apply bind_Permutation_ext. intros [k l]. apply sort_versions_perm.
Qed.

Lemma run_keeps_versions (vs : list Version)
    (out : option (list VersionGroup)) :
  Forall in_range vs → GroupVersions_runs vs out →
  ∃ gs, out = Some gs ∧ gs ≫= Versions ≡ₚ vs.
Proof.
  intros Hvs Hr. destruct (run_result vs out Hvs Hr) as (gs & -> & Hp & _).
  exists gs. split; [done|]. by rewrite Hp, canonical_groups_versions.
Qed.

(** X5.  GroupVersions neither drops nor repeats a version: the versions
    of the groups it returns are those it was given, each as often as it
    came. *)
Theorem GroupVersions_keeps_every_version (vs : list Version)
    (out : option (list VersionGroup)) :
  Forall in_range vs → GroupVersions_runs vs out →
  ∃ gs, out = Some gs ∧ gs ≫= Versions ≡ₚ vs.
Proof. apply run_keeps_versions. Qed.

Lemma GroupVersions_keeps_every_version_witness :
  ∃ gs,
    GroupVersions [mkVersion "go1.22" 1 22 0 0 "1.22" false 0;
                   mkVersion "go1.21.3" 1 21 3 0 "1.21.3" false 0;
                   mkVersion "go1.22" 1 22 0 0 "1.22" false 0] = Some gs
    ∧ gs ≫= Versions
      ≡ₚ [mkVersion "go1.22" 1 22 0 0 "1.22" false 0;
          mkVersion "go1.21.3" 1 21 3 0 "1.21.3" false 0;
          mkVersion "go1.22" 1 22 0 0 "1.22" false 0].
Proof.
  apply GroupVersions_keeps_every_version.
  - repeat constructor; vm_compute; congruence.
  - eexists. split; reflexivity.
Defined.

(* ================================================================== *)
(** ** Grouping twice *)
(* ================================================================== *)

Section SortedInput.
Context {A : Type} (gtb : A → A → bool).



End SortedInput.










(* ================================================================== *)
(** ** Panics of the group sort *)
(* ================================================================== *)

Section ExchangeSortPanics.
Context {A : Type} (gt : A → A → option bool) (bad : A → Prop).
Hypothesis gt_bad_l : ∀ x y, bad x → gt x y = None.
Hypothesis gt_bad_r : ∀ x y, bad y → gt x y = None.

Lemma foldl_swap_None i js : foldl (swap_if_gt gt i) None js = None.
Proof. by induction js. Qed.

Lemma foldl_inner_None js : foldl (inner_loop gt) None js = None.
Proof. by induction js. Qed.

Lemma swap_steps_keep js : ∀ a a',
  foldl (swap_if_gt gt 0) (Some a) js = Some a' →
  length a' = length a
  ∧ ∀ p, p ∉ js → p ≠ 0%nat → a' !! p = a !! p.
Proof.
  induction js as [|j js IH]; intros a a' H; cbn [foldl] in H.
  { by injection H as ->. }
  destruct (swap_if_gt gt 0 (Some a) j) as [a1|] eqn:E;
    [|by rewrite foldl_swap_None in H].
  destruct (IH _ _ H) as [Hlen Hkeep].
  unfold swap_if_gt in E. cbn [mbind option_bind] in E.
  destruct (a !! 0%nat) as [x|]; [|done]. cbn [mbind option_bind] in E.
  destruct (a !! j) as [y|]; [|done]. cbn [mbind option_bind] in E.
  destruct (gt x y) as [b|]; [|done]. cbn [mbind option_bind] in E.
  injection E as <-.
  split.
  - rewrite Hlen. destruct b; [|done]. by rewrite !length_insert.
  - intros p Hp Hp0. apply not_elem_of_cons in Hp as [Hpj Hp].
    rewrite Hkeep by done. destruct b; [|done].
    by rewrite !list_lookup_insert_ne by done.
Qed.

Lemma first_pass_panics a p x :
  a !! p = Some x → bad x → (2 ≤ length a)%nat →
  inner_loop gt (Some a) 0 = None.
Proof.
  intros Hp Hbad Hlen. unfold inner_loop. cbn [mbind option_bind].
  destruct a as [|z [|y tl]]; [cbn in Hlen; lia..|].
  destruct p as [|p].
  - injection Hp as ->. cbn [length Nat.sub seq foldl].
    unfold swap_if_gt at 2. cbn [mbind option_bind lookup list_lookup].
    rewrite gt_bad_l by done. apply foldl_swap_None.
  - pose proof (lookup_lt_Some _ _ _ Hp) as Hlt.
    replace (length (z :: y :: tl) - 1)%nat
      with (p + S (length (z :: y :: tl) - 1 - S p))%nat by lia.
    rewrite seq_app, foldl_app. cbn [seq foldl].
    destruct (foldl (swap_if_gt gt 0) (Some (z :: y :: tl)) (seq 1 p))
      as [a'|] eqn:E; [|apply foldl_swap_None].
    apply swap_steps_keep in E as [Hl Hk].
    rewrite Nat.add_1_l.
    assert (a' !! S p = Some x) as Hx.
    { rewrite Hk; [done| |done]. rewrite elem_of_seq. lia. }
    destruct a' as [|z' a']; [done|].
    unfold swap_if_gt at 2. cbn [mbind option_bind].
    rewrite Hx. cbn [lookup list_lookup mbind option_bind].
    rewrite gt_bad_r by done. apply foldl_swap_None.
Qed.

Lemma exchange_sort_panics a x :
  x ∈ a → bad x → (2 ≤ length a)%nat → exchange_sort gt a = None.
Proof.
  intros [p Hp]%list_elem_of_lookup Hbad Hlen. unfold exchange_sort.
  replace (length a - 1)%nat with (S (length a - 2)) by lia.
  cbn [seq foldl]. rewrite (first_pass_panics a p x) by done.
  apply foldl_inner_None.
Qed.

End ExchangeSortPanics.

Lemma exchange_sort_short {A} (gt : A → A → option bool) (a : list A) :
  (length a ≤ 1)%nat → exchange_sort gt a = Some a.
Proof. destruct a as [|? [|? ?]]; cbn [length]; [done..|lia]. Qed.

Lemma two_elements {A} (l : list A) x y :
  x ∈ l → y ∈ l → x ≠ y → (2 ≤ length l)%nat.
Proof.
  destruct l as [|a [|b l]]; cbn [length]; [by intros ?%elem_of_nil| |lia].
  intros ->%list_elem_of_singleton ->%list_elem_of_singleton. done.
Qed.

Lemma NoDup_constant {A} (l : list A) c :
  NoDup l → (∀ x, x ∈ l → x = c) → (length l ≤ 1)%nat.
Proof.
  destruct l as [|a [|b l]]; cbn [length]; [lia..|].
  intros Hnd Hc. exfalso.
  apply NoDup_cons in Hnd as [Hn _]. apply Hn.
  rewrite (Hc a), (Hc b); [left|right; left|left].
Qed.

Lemma GroupVersions_from_groups entries :
  GroupVersions_from entries = exchange_sort group_gt (to_group <$> entries).
Proof. unfold GroupVersions_from. by rewrite mapM_sort_group. Qed.

Lemma entry_has_version vs k l :
  (k, l) ∈ map_to_list (build_groups vs) →
  l = with_key k vs ∧ ∃ v, v ∈ vs ∧ GetMajorMinor v = k.
Proof.
  intros [Hne ->]%build_groups_entry. split; [done|].
  destruct (with_key k vs) as [|v l] eqn:E; [done|].
  assert (v ∈ with_key k vs) as Hv by (rewrite E; left).
  apply list_elem_of_filter in Hv as [? ?]. by exists v.
Qed.

Lemma version_has_entry vs v :
  v ∈ vs →
  (GetMajorMinor v, with_key (GetMajorMinor v) vs)
    ∈ map_to_list (build_groups vs).
Proof.
  intros Hv. apply build_groups_entry. split; [|done].
  intros E. assert (v ∈ with_key (GetMajorMinor v) vs) as H
    by (by apply list_elem_of_filter).
  rewrite E in H. by apply elem_of_nil in H.
Qed.

Lemma key_parsesb_false v : key_parsesb (GetMajorMinor v) = false ↔ key_fails v.
Proof.
  unfold key_parsesb, key_fails.
  destruct (ParseVersion _) as [kv|e]; split; try done.
  - by intros [? ?].
  - by exists e.
Qed.

Lemma group_gt_parsed g1 g2 :
  key_parsesb (MajorMinor g1) = true → key_parsesb (MajorMinor g2) = true →
  group_gt g1 g2 = Some (group_gtb g1 g2).
Proof.
  unfold key_parsesb, group_gtb, group_gt, key_tag.
  by destruct (ParseVersion _), (ParseVersion _).
Qed.

Lemma group_gtb_parsed_asym g1 g2 :
  key_parsesb (MajorMinor g1) = true → key_parsesb (MajorMinor g2) = true →
  group_gtb g1 g2 = true → group_gtb g2 g1 = false.
Proof.
  unfold key_parsesb, group_gtb, group_gt, key_tag.
  destruct (ParseVersion _) as [v1|], (ParseVersion _) as [v2|]; try done.
  intros _ _. cbn. apply version_gtb_asym.
Qed.

Lemma group_gtb_parsed_trans g1 g2 g3 :
  key_parsesb (MajorMinor g1) = true → key_parsesb (MajorMinor g2) = true →
  key_parsesb (MajorMinor g3) = true →
  group_gtb g1 g2 = false → group_gtb g2 g3 = false → group_gtb g1 g3 = false.
Proof.
  unfold key_parsesb, group_gtb, group_gt, key_tag.
  destruct (ParseVersion _) as [v1|], (ParseVersion _) as [v2|],
    (ParseVersion _) as [v3|]; try done.
  intros _ _ _. cbn. apply version_gtb_trans.
Qed.

Lemma group_gt_failed_l g1 g2 :
  key_parsesb (MajorMinor g1) = false → group_gt g1 g2 = None.
Proof.
  unfold key_parsesb, group_gt, key_tag. by destruct (ParseVersion _).
Qed.

Lemma group_gt_failed_r g1 g2 :
  key_parsesb (MajorMinor g2) = false → group_gt g1 g2 = None.
Proof.
  unfold key_parsesb, group_gt, key_tag.
  by destruct (ParseVersion _), (ParseVersion _).
Qed.

(** X7.  GroupVersions panics exactly when it has to order two or more
    groups and the key of one of them does not parse back as a version: the
    group sort drops the error of ParseVersion and calls Compare on the nil
    result. *)
Theorem GroupVersions_panics_iff (vs : list Version)
    (out : option (list VersionGroup)) :
  GroupVersions_runs vs out →
  out = None
  ↔ ∃ a b, a ∈ vs ∧ b ∈ vs ∧ GetMajorMinor a ≠ GetMajorMinor b ∧ key_fails a.
Proof.
  intros (entries & Hperm & ->). rewrite GroupVersions_from_groups. split.
  - intros Hnone.
    destruct (decide (Forall (λ v, key_parsesb (GetMajorMinor v) = true) vs))
      as [Hall|Hsome].
    + exfalso.
      rewrite (exchange_sort_spec group_gt group_gtb
                 (λ g, key_parsesb (MajorMinor g) = true)) in Hnone; [done|..].
      * apply group_gt_parsed.
      * apply group_gtb_parsed_asym.
      * apply group_gtb_parsed_trans.
      * apply Forall_fmap, Forall_forall. intros [k l] Hkl. cbn.
        rewrite Hperm in Hkl.
        apply entry_has_version in Hkl as (_ & v & Hv & <-).
        rewrite Forall_forall in Hall. by apply Hall.
    + apply not_Forall_Exists in Hsome; [|apply _].
      apply Exists_exists in Hsome as (a & Ha & Hfail). cbn in Hfail.
      apply not_true_is_false in Hfail.
      destruct (decide (Forall (λ b, GetMajorMinor b = GetMajorMinor a) vs))
        as [Hsame|Hdiff].
      * exfalso. rewrite exchange_sort_short in Hnone; [done|].
        rewrite length_fmap, Hperm.
        apply (NoDup_constant _
                 (GetMajorMinor a, with_key (GetMajorMinor a) vs));
          [apply NoDup_map_to_list|].
        intros [k l] (-> & v & Hv & <-)%entry_has_version.
        rewrite Forall_forall in Hsame. by rewrite (Hsame v Hv).
      * apply not_Forall_Exists in Hdiff; [|apply _].
        apply Exists_exists in Hdiff as (b & Hb & Hne). cbn in Hne.
        exists a, b. split; [done|]. split; [done|].
        split; [by intros E|]. by apply key_parsesb_false.
  - intros (a & b & Ha & Hb & Hne & Hfail%key_parsesb_false).
    apply (exchange_sort_panics group_gt
             (λ g, key_parsesb (MajorMinor g) = false))
      with (x := to_group (GetMajorMinor a, with_key (GetMajorMinor a) vs)).
    + intros. by apply group_gt_failed_l.
    + intros. by apply group_gt_failed_r.
    + apply list_elem_of_fmap_2. rewrite Hperm. by apply version_has_entry.
    + done.
    + rewrite length_fmap, Hperm.
      eapply two_elements; [by apply (version_has_entry vs a)
                           |by apply (version_has_entry vs b)|].
      intros [= E _]. done.
Qed.

Lemma GroupVersions_panics_iff_witness :
  GroupVersions [mkVersion "go1.22.0" 1 22 0 0 "1.22" false 0;
                 mkVersion "go-1.4" (-1) 4 0 0 "-1.4" false 0] = None
  ↔ ∃ a b,
      a ∈ [mkVersion "go1.22.0" 1 22 0 0 "1.22" false 0;
           mkVersion "go-1.4" (-1) 4 0 0 "-1.4" false 0]
      ∧ b ∈ [mkVersion "go1.22.0" 1 22 0 0 "1.22" false 0;
             mkVersion "go-1.4" (-1) 4 0 0 "-1.4" false 0]
      ∧ GetMajorMinor a ≠ GetMajorMinor b ∧ key_fails a.
Proof.
  apply GroupVersions_panics_iff. eexists. split; reflexivity.
Defined.

(* ================================================================== *)
(** ** NormalizeVersion *)
(* ================================================================== *)

Ltac each_byte c := destruct c as [[] [] [] [] [] [] [] []].

Ltac byte_case H :=
  first [ vm_compute in H; discriminate H | vm_compute; reflexivity ].

Lemma space_rune_plain_first c m r :
  ascii_plain c = true → Go.space_rune (nat_of_ascii c :: m :: r) = false.
Proof. each_byte c; intros H; byte_case H. Qed.

Lemma space_rune_plain_second m c :
  ascii_plain c = true →
  Go.space_rune [nat_of_ascii m; nat_of_ascii c] = false.
Proof.
  each_byte m; try (intros _; vm_compute; reflexivity).
  all: each_byte c; intros H; byte_case H.
Qed.

Lemma space_rune_plain_third k m c :
  ascii_plain c = true →
  Go.space_rune [nat_of_ascii k; nat_of_ascii m; nat_of_ascii c] = false.
Proof.
  each_byte k; try (intros _; vm_compute; reflexivity);
    (each_byte m; try (intros _; vm_compute; reflexivity);
       (each_byte c; intros H; byte_case H)).
Qed.

Lemma leading_space_plain c l :
  ascii_plain c = true → Go.leading_space (c :: l) = None.
Proof.
  intros H. unfold Go.leading_space.
  assert (Go.space_rune [nat_of_ascii c] = false) as H1.
  { apply andb_prop in H as [_ H]. by apply negb_true_iff in H. }
  destruct l as [|m [|k l]]; cbn [fmap list_fmap take]; rewrite ?take_0;
    rewrite ?H1; rewrite ?space_rune_plain_first by done; done.
Qed.

Lemma trailing_space_plain c r :
  ascii_plain c = true → Go.trailing_space (c :: r) = None.
Proof.
  intros H. unfold Go.trailing_space.
  assert (Go.space_rune [nat_of_ascii c] = false) as H1.
  { apply andb_prop in H as [_ H]. by apply negb_true_iff in H. }
  destruct r as [|m [|k r]]; cbn [fmap list_fmap take rev app];
    rewrite ?take_0; cbn [rev app]; rewrite ?H1;
    rewrite ?space_rune_plain_second, ?space_rune_plain_third by done; done.
Qed.

Lemma leading_space_space c l :
  ascii_space c → Go.leading_space (c :: l) = Some 1%nat.
Proof.
  intros H. unfold Go.leading_space. cbn [fmap list_fmap take].
  rewrite take_0. by rewrite H.
Qed.

Lemma trailing_space_space c r :
  ascii_space c → Go.trailing_space (c :: r) = Some 1%nat.
Proof.
  intros H. unfold Go.trailing_space. cbn [fmap list_fmap take].
  rewrite take_0. cbn [rev app]. by rewrite H.
Qed.

Lemma trim_left_spaces ws : ∀ fuel l,
  Forall ascii_space ws → (length ws ≤ fuel)%nat →
  Go.leading_space l = None →
  Go.trim_left fuel (ws ++ l) = l.
Proof.
  induction ws as [|c ws IH]; intros fuel l Hws Hf Hl.
  - destruct fuel; cbn; [done|]. by rewrite Hl.
  - apply Forall_cons in Hws as [Hc Hws].
    destruct fuel as [|fuel]; [cbn in Hf; lia|].
    cbn [app Go.trim_left]. rewrite leading_space_space by done.
    cbn [drop]. apply IH; [done|cbn in Hf; lia|done].
Qed.

Lemma trim_right_spaces ws : ∀ fuel r,
  Forall ascii_space ws → (length ws ≤ fuel)%nat →
  Go.trailing_space r = None →
  Go.trim_right_rev fuel (ws ++ r) = r.
Proof.
  induction ws as [|c ws IH]; intros fuel r Hws Hf Hr.
  - destruct fuel; cbn; [done|]. by rewrite Hr.
  - apply Forall_cons in Hws as [Hc Hws].
    destruct fuel as [|fuel]; [cbn in Hf; lia|].
    cbn [app Go.trim_right_rev]. rewrite trailing_space_space by done.
    cbn [drop]. apply IH; [done|cbn in Hf; lia|done].
Qed.

(** TrimSpace removes the ASCII white space around a text that begins and
    ends with ASCII bytes that are not white space. *)
Lemma TrimSpace_padded ws1 ws2 c mid d :
  Forall ascii_space ws1 → Forall ascii_space ws2 →
  ascii_plain c = true → ascii_plain d = true →
  Go.TrimSpace (Go.str (ws1 ++ (c :: mid ++ [d]) ++ ws2))
  = Go.str (c :: mid ++ [d]).
Proof.
  intros H1 H2 Hc Hd. unfold Go.TrimSpace. rewrite bytes_str. cbv zeta.
  rewrite trim_left_spaces;
    [|done|rewrite length_app; lia|by apply leading_space_plain].
  rewrite rev_app_distr.
  change (c :: mid ++ [d]) with ((c :: mid) ++ [d]) at 2.
  rewrite (rev_app_distr (c :: mid) [d]). cbn [rev app].
  rewrite trim_right_spaces;
    [|by apply Forall_rev
     |rewrite length_rev; cbn [length app]; rewrite !length_app; lia
     |by apply trailing_space_plain].
  change (d :: rev mid ++ [c]) with ([d] ++ (rev mid ++ [c])).
  rewrite rev_app_distr, rev_app_distr, rev_involutive. by cbn.
Qed.

Lemma digit_plain c : digit c → ascii_plain c = true.
Proof. unfold digit. each_byte c; intros H; byte_case H. Qed.

Lemma is_int_first ds : is_int ds → ∃ c tl, ds = c :: tl ∧ digit c.
Proof.
  intros [Hne Hd]. destruct ds as [|c tl]; [done|].
  apply Forall_cons in Hd as [Hc _]. by exists c, tl.
Qed.

Lemma is_int_last ds : is_int ds → ∃ tl d, ds = tl ++ [d] ∧ digit d.
Proof.
  intros [Hne Hd]. destruct ds as [|d tl _] using rev_ind; [done|].
  apply Forall_app in Hd as [_ Hd]. apply Forall_cons in Hd as [Hd _].
  by exists tl, d.
Qed.

(** A version without its "go": a digit at both ends. *)
Lemma grammar_ends s g :
  matches_grammar ("go" +:+ s) g →
  ∃ c mid d, Go.bytes s = c :: mid ++ [d] ∧ digit c ∧ digit d.
Proof.
  intros [(Hmaj & Hmin & Hp & Hr) Hb]. unfold assemble in Hb.
  rewrite bytes_app in Hb. apply app_inv_head in Hb. rewrite Hb.
  apply is_int_first in Hmaj as (c & tl & -> & Hc). exists c.
  assert (∃ pre d, p_minor g
            ++ match p_patch g with
               | Some p => Go.bytes "." ++ p | None => [] end
            ++ match p_rc g with
               | Some r => Go.bytes "rc" ++ r | None => [] end
            = pre ++ [d] ∧ digit d) as (pre & d & -> & Hd).
  { destruct (p_rc g) as [r|].
    - destruct (is_int_last r (Hr r eq_refl)) as (tl' & d & -> & Hd).
      eexists _, d. split; [|done]. by rewrite !app_assoc.
    - destruct (p_patch g) as [p|].
      + destruct (is_int_last p (Hp p eq_refl)) as (tl' & d & -> & Hd).
        eexists _, d. split; [|done]. rewrite app_nil_r. by rewrite !app_assoc.
      + destruct (is_int_last _ Hmin) as (tl' & d & -> & Hd).
        eexists _, d. split; [|done]. by rewrite !app_nil_r. }
  exists (tl ++ Go.bytes "." ++ pre), d. split; [|done].
  cbn [app]. by rewrite <- !app_assoc.
Qed.

Lemma HasPrefix_go_digit c s :
  digit c → Go.HasPrefix (String c s) "go" = false.
Proof. unfold digit. each_byte c; intros H; byte_case H. Qed.

Lemma str_app l1 l2 : Go.str (l1 ++ l2) = Go.str l1 +:+ Go.str l2.
Proof.
  rewrite <- (str_bytes (Go.str l1 +:+ Go.str l2)).
  by rewrite bytes_app, !bytes_str.
Qed.

Lemma TrimSpace_text ws1 ws2 s c mid d :
  Forall ascii_space ws1 → Forall ascii_space ws2 →
  Go.bytes s = c :: mid ++ [d] →
  ascii_plain c = true → ascii_plain d = true →
  Go.TrimSpace (Go.str ws1 +:+ s +:+ Go.str ws2) = s.
Proof.
  intros H1 H2 Hs Hc Hd.
  assert (s = Go.str (c :: mid ++ [d])) as -> by (by rewrite <- Hs, str_bytes).
  rewrite <- !str_app. by apply TrimSpace_padded.
Qed.

(** X8.  NormalizeVersion accepts a version with or without its "go" and
    with ASCII white space around it: both forms become the tag that
    ParseVersion accepts. *)
Theorem NormalizeVersion_forms (s : string) (v : Version)
    (ws1 ws2 : list ascii) :
  ParseVersion ("go" +:+ s) = Ok v →
  Forall ascii_space ws1 → Forall ascii_space ws2 →
  NormalizeVersion (Go.str ws1 +:+ s +:+ Go.str ws2) = "go" +:+ s
  ∧ NormalizeVersion (Go.str ws1 +:+ ("go" +:+ s) +:+ Go.str ws2)
    = "go" +:+ s.
Proof.
  intros Hp H1 H2.
  apply ParseVersion_inv in Hp as (g & Hg & _).
  apply grammar_ends in Hg as (c & mid & d & Hs & Hc & Hd).
  unfold NormalizeVersion. split.
  - rewrite (TrimSpace_text ws1 ws2 s c mid d) by auto using digit_plain.
    cbv zeta.
    assert (s = String c (Go.str (mid ++ [d]))) as ->
      by (by rewrite <- (str_bytes s), Hs).
    by rewrite HasPrefix_go_digit.
  - rewrite (TrimSpace_text ws1 ws2 ("go" +:+ s) "g" ("o"%char :: c :: mid) d);
      [|done|done| |done|by apply digit_plain].
    { cbv zeta. change ("go" +:+ s) with (String "g" (String "o" s)).
      assert (Go.HasPrefix (String "g" (String "o" s)) "go" = true) as ->;
        [|done].
      unfold Go.HasPrefix. cbn. by destruct s. }
    rewrite bytes_app, Hs. done.
Qed.

Lemma NormalizeVersion_forms_witness :
  NormalizeVersion
    (Go.str [" "%char] +:+ "1.22rc1" +:+ Go.str ["010"%char]) = "go1.22rc1"
  ∧ NormalizeVersion
      (Go.str [" "%char] +:+ "go1.22rc1" +:+ Go.str ["010"%char])
    = "go1.22rc1".
Proof.
  apply (NormalizeVersion_forms "1.22rc1"
           (mkVersion "go1.22rc1" 1 22 0 1 "1.22rc1" true 0)).
  - vm_compute. reflexivity.
  - repeat constructor.
  - repeat constructor.
Defined.

(* ================================================================== *)
(** ** What FetchTags returns *)
(* ================================================================== *)

Lemma included_Forall existingTags opts minVersion tags :
  Forall (λ t, included_tag existingTags opts minVersion t = true)
    (included existingTags opts minVersion tags).
Proof.
  apply Forall_forall. intros t Ht. unfold included in Ht.
  by apply list_elem_of_filter in Ht as [? _].
Qed.

Lemma included_tag_spec existingTags opts minVersion t :
  included_tag existingTags opts minVersion t = true
  ↔ known existingTags t = false
    ∧ ∃ v, ParseVersion t = Ok v ∧ shouldInclude opts minVersion v = true.
Proof.
  unfold included_tag. rewrite andb_true_iff, negb_true_iff.
  destruct (ParseVersion t) as [v|e]; split.
  - intros [? ?]. eauto.
  - by intros [? (v' & [= <-] & ?)].
  - by intros [? ?].
  - by intros [? (v' & [=] & ?)].
Qed.

Section LoopInvariants.
Context {World : Type}.
Context (ctxDone : World → bool).
Context (ListTags : World → Z → Z → ListTagsReply * World).
Context (existingTags : gmap string bool) (opts : FetchOptions).
Context (minVersion : option Version).

Local Abbreviation loop :=
  (fetchLoop ctxDone ListTags existingTags opts minVersion).
Local Abbreviation kept :=
  (λ t, included_tag existingTags opts minVersion t = true).

Lemma fetchLoop_tags_kept fuel : ∀ w page acc reqs res w',
  loop fuel w page acc reqs = Some (res, w') →
  Forall kept acc → Forall kept (tags res).
Proof.
  induction fuel as [|fuel IH]; intros w page acc reqs res w'; [done|].
  cbn [fetchLoop].
  destruct (ctxDone w); [by intros [= <- <-]|].
  destruct (ListTags w page perPage) as [reply w1].
  destruct (reply_err reply); [by intros [= <- <-]|].
  destruct (match reply_resp reply with Some _ => _ | None => _ end);
    [by intros [= <- <-]|].
  destruct (reply_tags reply) as [|t tl] eqn:Ht; [by intros [= <- <-]|].
  rewrite <- Ht. rewrite page_allTags.
  assert (Forall kept acc →
          Forall kept (acc ++ included existingTags opts minVersion
                                (reply_tags reply))) as Hstep.
  { intros Hacc. apply Forall_app. split; [done|apply included_Forall]. }
  destruct (allExistingFound _); [intros [= <- <-]; exact Hstep|].
  destruct (reply_resp reply) as [r|]; [|intros [= <- <-]; exact Hstep].
  destruct (NextPage r =? 0); [intros [= <- <-]; exact Hstep|].
  intros Hl Hacc. eapply IH; eauto.
Qed.

(** The loop builds none of its errors from a bad minimum version. *)
Lemma fetchLoop_err fuel : ∀ w page acc reqs res w',
  loop fuel w page acc reqs = Some (res, w') →
  ∀ m e, err res ≠ Some (InvalidMinVersion m e).
Proof.
  induction fuel as [|fuel IH]; intros w page acc reqs res w'; [done|].
  cbn [fetchLoop].
  destruct (ctxDone w); [by intros [= <- <-]|].
  destruct (ListTags w page perPage) as [reply w1].
  destruct (reply_err reply) as [[| |msg]|]; [by intros [= <- <-]..|].
  destruct (match reply_resp reply with Some _ => _ | None => _ end);
    [by intros [= <- <-]|].
  destruct (reply_tags reply) as [|t tl] eqn:Ht; [by intros [= <- <-]|].
  destruct (allExistingFound _); [by intros [= <- <-]|].
  destruct (reply_resp reply) as [r|]; [|by intros [= <- <-]].
  destruct (NextPage r =? 0); [by intros [= <- <-]|].
  apply IH.
Qed.

End LoopInvariants.

Lemma fetched_tags_are_new {World : Type}
    (ctxDone : World → bool)
    (ListTags : World → Z → Z → ListTagsReply * World)
    (existingTags : gmap string bool) (options : list Option)
    (fuel : nat) (w w' : World) (res : FetchResult) :
  FetchTags ctxDone ListTags existingTags options fuel w = Some (res, w') →
  Forall (λ t, known existingTags t = false
               ∧ ∃ v, ParseVersion t = Ok v
                 ∧ ∀ minVersion,
                     parseMinVersion (resolveOptions options) = Ok minVersion →
                     shouldInclude (resolveOptions options) minVersion v = true)
    (tags res).
Proof.
  unfold FetchTags.
  destruct (parseMinVersion (resolveOptions options)) as [minVersion|e] eqn:E.
  - intros Hl. apply fetchLoop_tags_kept in Hl; [|constructor].
    eapply Forall_impl; [exact Hl|]. cbn beta.
    intros t (Hk & v & Hp & Hs)%included_tag_spec. split; [done|].
    exists v. split; [done|]. by intros ? [= <-].
  - intros [= <- <-]. constructor.
Qed.

(** X9.  Whatever FetchTags returns, with or without an error, holds only
    tags that were not in existingTags, parse, and pass the filters. *)
Theorem FetchTags_returns_only_new_versions {World : Type}
    (ctxDone : World → bool)
    (ListTags : World → Z → Z → ListTagsReply * World)
    (existingTags : gmap string bool) (options : list Option)
    (fuel : nat) (w w' : World) (res : FetchResult) :
  FetchTags ctxDone ListTags existingTags options fuel w = Some (res, w') →
  Forall (λ t, known existingTags t = false
               ∧ ∃ v, ParseVersion t = Ok v
                 ∧ ∀ minVersion,
                     parseMinVersion (resolveOptions options) = Ok minVersion →
                     shouldInclude (resolveOptions options) minVersion v = true)
    (tags res).
Proof. apply fetched_tags_are_new. Qed.

Lemma FetchTags_returns_only_new_versions_witness :
  Forall (λ t, known {["go1.21.0" := true]} t = false
               ∧ ∃ v, ParseVersion t = Ok v
                 ∧ ∀ minVersion,
                     parseMinVersion (resolveOptions []) = Ok minVersion →
                     shouldInclude (resolveOptions []) minVersion v = true)
    ["go1.22.0"].
Proof.
  apply (FetchTags_returns_only_new_versions never_done
           (page_then_rate_limit ["go1.22.0"; "release.r60"; "go1.21.0"; "go1.9"])
           {["go1.21.0" := true]} [] 2 0%nat 2%nat
           (mkResult ["go1.22.0"] (Some RateLimited) [1; 2])).
  vm_compute. reflexivity.
Defined.

(* ================================================================== *)
(** ** Options, counters and the version filter *)
(* ================================================================== *)

Lemma setter_keeps_AllVersions o opts :
  setter o → AllVersions opts = true → AllVersions (o opts) = true.
Proof. by intros [[v ->]|[[y ->]| ->]]. Qed.

Lemma applyOptions_keeps_AllVersions options : ∀ opts,
  Forall setter options → AllVersions opts = true →
  AllVersions (applyOptions options opts) = true.
Proof.
  induction options as [|o options IH]; intros opts Hs Ha; [done|].
  apply Forall_cons in Hs as [Ho Hs]. cbn.
  apply IH; [done|]. by apply setter_keeps_AllVersions.
Qed.

Lemma applyOptions_AllVersions options : ∀ opts,
  Forall setter options → WithAllVersions ∈ options →
  AllVersions (applyOptions options opts) = true.
Proof.
  induction options as [|o options IH]; intros opts Hs Hin.
  { by apply elem_of_nil in Hin. }
  apply Forall_cons in Hs as [Ho Hs]. cbn.
  apply elem_of_cons in Hin as [<-|Hin].
  - by apply applyOptions_keeps_AllVersions.
  - by apply IH.
Qed.

Lemma resolveOptions_unfold options :
  resolveOptions options
  = if bool_decide (MinVersion (applyOptions options (mkOptions "" 0 false)) = "")
       && negb (AllVersions (applyOptions options (mkOptions "" 0 false)))
    then mkOptions DefaultMinVersion
           (MinYear (applyOptions options (mkOptions "" 0 false)))
           (AllVersions (applyOptions options (mkOptions "" 0 false)))
    else applyOptions options (mkOptions "" 0 false).
Proof. reflexivity. Qed.

Lemma resolveOptions_AllVersions options :
  Forall setter options → WithAllVersions ∈ options →
  AllVersions (resolveOptions options) = true.
Proof.
  intros Hs Hin. rewrite resolveOptions_unfold.
  rewrite (applyOptions_AllVersions options _ Hs Hin). cbn [negb].
  rewrite andb_false_r. by apply applyOptions_AllVersions.
Qed.

(** X10.  WithAllVersions, wherever it stands among the options, switches
    every filter off: the minimum version is not even parsed, so a bad one
    is no error, and shouldInclude holds for every version. *)
Theorem WithAllVersions_bypasses_filters {World : Type}
    (ctxDone : World → bool)
    (ListTags : World → Z → Z → ListTagsReply * World)
    (existingTags : gmap string bool) (options : list Option)
    (fuel : nat) (w w' : World) (res : FetchResult) :
  Forall setter options → WithAllVersions ∈ options →
  FetchTags ctxDone ListTags existingTags options fuel w = Some (res, w') →
  parseMinVersion (resolveOptions options) = Ok None
  ∧ (∀ m e, err res ≠ Some (InvalidMinVersion m e))
  ∧ (∀ minVersion v,
       shouldInclude (resolveOptions options) minVersion v = true).
Proof.
  intros Hs Hin Hf.
  pose proof (resolveOptions_AllVersions options Hs Hin) as Ha.
  assert (parseMinVersion (resolveOptions options) = Ok None) as Hmin.
  { unfold parseMinVersion. by rewrite Ha, andb_false_r. }
  split; [done|]. split.
  - unfold FetchTags in Hf. rewrite Hmin in Hf.
    intros m e. by eapply fetchLoop_err.
  - intros minVersion v. unfold shouldInclude. by rewrite Ha.
Qed.

Lemma WithAllVersions_bypasses_filters_witness :
  parseMinVersion (resolveOptions [WithAllVersions; WithMinVersion "newest"])
  = Ok None
  ∧ (∀ m e, Some RateLimited ≠ Some (InvalidMinVersion m e))
  ∧ (∀ minVersion v,
       shouldInclude (resolveOptions [WithAllVersions; WithMinVersion "newest"])
         minVersion v = true).
Proof.
  apply (WithAllVersions_bypasses_filters never_done
           (page_then_rate_limit ["go1.0.1"; "weekly.2012-03-27"]) ∅
           [WithAllVersions; WithMinVersion "newest"] 2 0%nat 2%nat
           (mkResult ["go1.0.1"] (Some RateLimited) [1; 2])).
  - apply Forall_cons. split; [right; right; reflexivity|].
    apply Forall_cons. split; [left; by eexists|constructor].
  - left.
  - vm_compute. reflexivity.
Defined.

Section PageCounters.
Context (existingTags : gmap string bool) (opts : FetchOptions).
Context (minVersion : option Version) (n : nat).

Lemma processTags_counters tags : ∀ ps,
  (existingCount ps + length tags ≤ n)%nat →
  let ps' := processTags existingTags opts minVersion n tags ps in
  (newTagsCount ps' + existingCount ps' + skippedCount ps'
   = newTagsCount ps + existingCount ps + skippedCount ps + length tags)%nat
  ∧ (newTagsCount ps'
     = newTagsCount ps + length (included existingTags opts minVersion tags))%nat
  ∧ (existingCount ps'
     = existingCount ps
       + length (filter (λ t, known existingTags t = true) tags))%nat.
Proof.
  induction tags as [|t tl IH]; intros ps Hn; cbn zeta.
  { cbn. lia. }
  cbn [processTags length] in *. unfold included, included_tag.
  rewrite !filter_cons.
  destruct (known existingTags t) eqn:Hk; cbn [negb andb].
  - rewrite decide_False by done. rewrite decide_True by done.
    cbn [existingCount].
    destruct (Nat.eqb_spec (S (existingCount ps)) n) as [He|He].
    + destruct tl; [|cbn in Hn; lia]. cbn. lia.
    + match goal with
      | |- context [processTags _ _ _ _ _ ?q] =>
          destruct (IH q) as (H1 & H2 & H3); [cbn; lia|]
      end.
      cbn [newTagsCount existingCount skippedCount length] in *.
      unfold included, included_tag in H2. lia.
  - rewrite (decide_False (P := false = true)) by done.
    destruct (ParseVersion t) as [v|e];
      [destruct (shouldInclude opts minVersion v)|];
      [rewrite decide_True by done|rewrite decide_False by done
      |rewrite decide_False by done];
      match goal with
      | |- context [processTags _ _ _ _ _ ?q] =>
          destruct (IH q) as (H1 & H2 & H3); [cbn; lia|]
      end;
      cbn [newTagsCount existingCount skippedCount length] in *;
      unfold included, included_tag in H2; lia.
Qed.

End PageCounters.

(** X11.  The counters of a page add up: every entry is counted once, as
    new, as existing or as skipped; the new ones are the tags appended, the
    existing ones the entries found in existingTags. *)
Theorem page_counters (existingTags : gmap string bool) (opts : FetchOptions)
    (minVersion : option Version) (page acc : list string) :
  let ps := processTags existingTags opts minVersion (length page) page
              (mkPage acc 0 0 0 false) in
  (newTagsCount ps + existingCount ps + skippedCount ps = length page)%nat
  ∧ (length (allTags ps) = length acc + newTagsCount ps)%nat
  ∧ (existingCount ps
     = length (filter (λ t, known existingTags t = true) page))%nat.
Proof.
  cbn zeta.
  destruct (processTags_counters existingTags opts minVersion (length page)
              page (mkPage acc 0 0 0 false)) as (H1 & H2 & H3); [cbn; lia|].
  cbn [newTagsCount existingCount skippedCount] in *.
  rewrite page_allTags, length_app. lia.
Qed.

(** X12.  Without a minimum year the version filter is closed upwards:
    when a version passes, every version that Compare does not put below
    it passes too. *)
Theorem min_version_filter_upward (opts : FetchOptions) (m v v' : Version) :
  MinYear opts ≤ 0 → Compare v v' ≤ 0 →
  shouldInclude opts (Some m) v = true →
  shouldInclude opts (Some m) v' = true.
Proof.
  intros Hy Hle. unfold shouldInclude.
  destruct (AllVersions opts); cbn [negb]; [done|].
  assert ((MinYear opts >? 0) = false) as -> by lia. cbn [andb].
  destruct (Z.ltb_spec (Compare v m) 0) as [|Hm]; [done|]. intros _.
  destruct (Z.ltb_spec (Compare v' m) 0) as [Hlt|]; [|done].
  exfalso. rewrite (Compare_antisym v m) in Hm.
  assert (Compare m v ≤ 0) as Hmv by lia.
  pose proof (Compare_le_trans m v v' Hmv Hle) as Hmv'.
  rewrite (Compare_antisym v' m) in Hlt. lia.
Qed.

Lemma min_version_filter_upward_witness :
  shouldInclude (mkOptions "go1.18" 0 false)
    (Some (mkVersion "go1.18" 1 18 0 0 "1.18" false 0))
    (mkVersion "go1.21.0" 1 21 0 0 "1.21" false 0) = true.
Proof.
  apply (min_version_filter_upward (mkOptions "go1.18" 0 false)
           (mkVersion "go1.18" 1 18 0 0 "1.18" false 0)
           (mkVersion "go1.20rc1" 1 20 0 1 "1.20rc1" true 0)
           (mkVersion "go1.21.0" 1 21 0 0 "1.21" false 0)).
  - vm_compute. congruence.
  - vm_compute. congruence.
  - vm_compute. reflexivity.
Defined.

(* ================================================================== *)
(** ** The update branch of runVersions *)
(* ================================================================== *)

Lemma foldl_snoc {A} (l acc : list A) :
  foldl (λ acc x, acc ++ [x]) acc l = acc ++ l.
Proof.
  revert acc. induction l as [|x l IH]; intros acc; cbn [foldl].
  - by rewrite app_nil_r.
  - rewrite IH. by rewrite <- app_assoc.
Qed.

Lemma foldl_groups_snoc (gs : list VersionGroup) (acc : list Version) :
  foldl (λ acc g, foldl (λ acc v, acc ++ [v]) acc (Versions g)) acc gs
  = acc ++ (gs ≫= Versions).
Proof.
  revert acc. induction gs as [|g gs IH]; intros acc; cbn [foldl].
  - by rewrite app_nil_r.
  - rewrite IH, foldl_snoc, bind_cons. by rewrite <- app_assoc.
Qed.

Lemma cachedVersions_Some d : cachedVersions (Some d) = Groups d ≫= Versions.
Proof. unfold cachedVersions. by rewrite foldl_groups_snoc. Qed.

Lemma foldl_tags_known (vs : list Version) : ∀ (m : gmap string bool) t,
  known (foldl (λ m v, <[Tag v := true]> m) m vs) t = true
  ↔ known m t = true ∨ t ∈ Tag <$> vs.
Proof.
  induction vs as [|v vs IH]; intros m t; cbn [foldl fmap list_fmap].
  - split; [by left|]. intros [?|?%elem_of_nil]; done.
  - rewrite IH, elem_of_cons. unfold known.
    destruct (decide (Tag v = t)) as [->|Hne].
    + rewrite lookup_insert_eq. cbn. intuition.
    + rewrite lookup_insert_ne by done. intuition.
Qed.

Lemma foldl_groups_known (gs : list VersionGroup) :
  ∀ (m : gmap string bool) t,
  known (foldl (λ m g, foldl (λ m v, <[Tag v := true]> m) m (Versions g))
           m gs) t = true
  ↔ known m t = true ∨ t ∈ Tag <$> (gs ≫= Versions).
Proof.
  induction gs as [|g gs IH]; intros m t; cbn [foldl].
  - split; [by left|]. intros [?|?%elem_of_nil]; done.
  - rewrite IH, foldl_tags_known, bind_cons, fmap_app, elem_of_app.
    intuition.
Qed.

Lemma existingTags_lookup (cachedData : option VersionsData) (t : string) :
  known (existingTagsOf cachedData) t = true ↔ t ∈ cachedTags cachedData.
Proof.
  unfold cachedTags. destruct cachedData as [d|].
  - rewrite cachedVersions_Some. unfold existingTagsOf.
    rewrite foldl_groups_known. unfold known. rewrite lookup_empty. cbn.
    split; [by intros [?|?]|by right].
  - cbn. split; [done|by intros ?%elem_of_nil].
Qed.

(** X13.  The map that runVersions hands to FetchTags knows exactly the
    tags of the cached versions; without a cache it knows none. *)
Theorem existingTagsOf_known (cachedData : option VersionsData) (t : string) :
  known (existingTagsOf cachedData) t = true ↔ t ∈ cachedTags cachedData.
Proof. apply existingTags_lookup. Qed.

Section RunVersionsFacts.
Context {World : Type}.
Context (ctxDone : World → bool).
Context (ListTags : World → Z → Z → ListTagsReply * World).
Context (Now : World → Time * World).

Lemma parseNewTags_app_acc (tags : list string) : ∀ acc w,
  Forall (λ t, ∃ v, ParseVersion t = Ok v) tags →
  ∃ new w',
    foldl (λ '(newVersions, w) tag,
             match ParseVersion tag with
             | Err _ => (newVersions, w)
             | Ok v =>
                 let '(now, w') := Now w in
                 (newVersions ++ [setFetchedAt v now], w')
             end) (acc, w) tags = (acc ++ new, w')
    ∧ Tag <$> new = tags
    ∧ Forall in_range new.
Proof.
  induction tags as [|t tags IH]; intros acc w Hp; cbn [foldl].
  - exists [], w. by rewrite app_nil_r.
  - apply Forall_cons in Hp as [(v & Hv) Hp]. rewrite Hv.
    destruct (Now w) as [now w1].
    destruct (IH (acc ++ [setFetchedAt v now]) w1 Hp)
      as (new & w' & -> & Htags & Hr).
    exists (setFetchedAt v now :: new), w'. rewrite <- app_assoc.
    split; [done|]. split.
    + cbn. f_equal; [|done].
      by destruct (ParseVersion_fields _ _ Hv) as (_ & _ & _ & _ & ->).
    + apply Forall_cons. split; [|done].
      destruct (ParseVersion_fields _ _ Hv) as ((? & ? & _) & _).
      by split.
Qed.

Lemma parseNewTags_parsed (tags : list string) w :
  Forall (λ t, ∃ v, ParseVersion t = Ok v) tags →
  Tag <$> (parseNewTags Now tags w).1 = tags
  ∧ Forall in_range (parseNewTags Now tags w).1.
Proof.
  intros Hp. unfold parseNewTags.
  destruct (parseNewTags_app_acc tags [] w Hp) as (new & w' & -> & ? & ?).
  done.
Qed.


(** X14.  An update keeps the cache and adds what was fetched: every tag
    that FetchTags returned becomes a version (the caller never skips one),
    none of them has the tag of a cached version, and the groups of the new
    data hold the cached versions and the new ones, each once. *)
Theorem update_merges (cachedData : option VersionsData) (flags : Flags)
    (fuel : nat) (w : World) (out : option (VersionsData * World)) :
  Forall in_range (cachedVersions cachedData) →
  updateVersions_runs ctxDone ListTags Now cachedData flags fuel w out →
  ∃ data w' res w1 newVersions,
    out = Some (data, w')
    ∧ FetchTags ctxDone ListTags (existingTagsOf cachedData)
        (fetchOptionsOf flags) fuel w = Some (res, w1)
    ∧ Tag <$> newVersions = tags res
    ∧ Forall (λ v, Tag v ∉ cachedTags cachedData) newVersions
    ∧ Groups data ≫= Versions ≡ₚ cachedVersions cachedData ++ newVersions.
Proof.
  intros Hc (res & w1 & Hf & gout & Hrun & ->).
  pose proof (fetched_tags_are_new _ _ _ _ _ _ _ _ Hf) as Hnew.
  assert (Forall (λ t, ∃ v, ParseVersion t = Ok v) (tags res)) as Hp.
  { eapply Forall_impl; [exact Hnew|]. cbn. intros t (_ & v & ? & _). eauto. }
  destruct (parseNewTags_parsed (tags res) w1 Hp) as [Htags Hr].
  destruct (parseNewTags Now (tags res) w1) as [new w2]. cbn [fst snd] in *.
  assert (Forall in_range (cachedVersions cachedData ++ new)) as Hall
    by (by apply Forall_app).
  destruct (run_keeps_versions _ _ Hall Hrun)
    as (gs & -> & Hperm).
  cbn [mbind option_bind]. destruct (Now w2) as [now w3].
  exists (mkData now gs), w3, res, w1, new.
  split; [done|]. split; [done|]. split; [done|]. split; [|done].
  apply Forall_forall. intros v Hv Hin.
  apply existingTags_lookup in Hin.
  assert (Tag v ∈ tags res) as Ht
    by (rewrite <- Htags; by apply list_elem_of_fmap_2).
  rewrite Forall_forall in Hnew. destruct (Hnew _ Ht) as [Hk _].
  congruence.
Qed.


End RunVersionsFacts.

Lemma update_merges_witness :
  ∃ data w' res w1 newVersions,
    updateVersions never_done
      (one_page ["go1.22.0"; "release.r60"; "go1.21.0"] 0) tick
      (Some (mkData 5 [mkGroup "1.21"
                         [mkVersion "go1.21.0" 1 21 0 0 "1.21" false 4]]))
      (mkFlags false "" 0) 1 0%nat = Some (data, w')
    ∧ FetchTags never_done
        (one_page ["go1.22.0"; "release.r60"; "go1.21.0"] 0)
        (existingTagsOf
           (Some (mkData 5 [mkGroup "1.21"
                              [mkVersion "go1.21.0" 1 21 0 0 "1.21" false 4]])))
        (fetchOptionsOf (mkFlags false "" 0)) 1 0%nat = Some (res, w1)
    ∧ Tag <$> newVersions = tags res
    ∧ Forall (λ v, Tag v ∉ cachedTags
                 (Some (mkData 5 [mkGroup "1.21"
                          [mkVersion "go1.21.0" 1 21 0 0 "1.21" false 4]])))
        newVersions
    ∧ Groups data ≫= Versions
      ≡ₚ cachedVersions
           (Some (mkData 5 [mkGroup "1.21"
                    [mkVersion "go1.21.0" 1 21 0 0 "1.21" false 4]]))
         ++ newVersions.
Proof.
  apply (update_merges never_done
           (one_page ["go1.22.0"; "release.r60"; "go1.21.0"] 0) tick).
  - repeat constructor; vm_compute; congruence.
  - eexists _, _. split; [vm_compute; reflexivity|].
    eexists. split; [eexists; split; reflexivity|].
    vm_compute. reflexivity.
Defined.


(* ================================================================== *)
(** ** The cache check of runInstall *)
(* ================================================================== *)

Lemma foundInVersions_spec vs t :
  foundInVersions vs t = true ↔ t ∈ Tag <$> vs.
Proof.
  induction vs as [|v vs IH]; cbn [foundInVersions fmap list_fmap].
  - split; [done|by intros ?%elem_of_nil].
  - rewrite elem_of_cons. case_bool_decide as E.
    + split; [by left|done].
    + rewrite IH. split; [by right|]. by intros [?|?].
Qed.

Lemma foundInGroups_spec gs t :
  foundInGroups gs t = true ↔ t ∈ Tag <$> (gs ≫= Versions).
Proof.
  induction gs as [|g gs IH]; cbn [foundInGroups].
  - split; [done|by intros ?%elem_of_nil].
  - rewrite bind_cons, fmap_app, elem_of_app, <- foundInVersions_spec.
    destruct (foundInVersions (Versions g) t).
    + split; [by left|done].
    + rewrite IH. split; [by right|]. by intros [?|?].
Qed.

(** X16.  runInstall warns exactly when there is a cache and none of its
    versions has the normalized argument as its tag. *)
Theorem installWarns_iff (cachedData : option VersionsData) (arg : string) :
  installWarns cachedData arg = true
  ↔ is_Some cachedData ∧ NormalizeVersion arg ∉ cachedTags cachedData.
Proof.
  unfold installWarns, cachedTags. destruct cachedData as [d|].
  - rewrite cachedVersions_Some, negb_true_iff, <- foundInGroups_spec.
    destruct (foundInGroups _ _); split; try done.
    all: by intros [_ H].
  - split; [done|]. by intros [[? [=]] _].
Qed.
